(** * code-structure: a shallow embedding of [tree.js]

    The development follows the layout of the script: JavaScript string
    primitives, the [path] helpers, the configuration loader, the
    signature extractor (structural strategy over an ESTree syntax tree,
    textual fallback over regular expressions) and the recursive tree
    generator.

    Conventions.
    - A JavaScript string is a Rocq [string]; its characters are compared
      and ordered by code, as JavaScript compares code units.  A character
      outside ASCII is carried as the bytes of its UTF-8 encoding, and the
      classes [\s] and [\w] are those of ASCII.
    - A call that may throw returns a [result]; [try]/[catch] is
      [try_catch].
    - The file system, the [acorn] parser and [JSON.parse] are outside the
      script: they appear as data ([entry], [ConfigSource]) or as section
      variables ([readFileSync], [parse]). *)

From Stdlib Require Import String Ascii List Bool Arith Lia ZArith.
From Stdlib Require Import Sorted Permutation.
Import ListNotations.
Open Scope string_scope.
Set Warnings "-register-all".

(** ** Exceptions *)

Inductive exn : Type :=
| TypeError
| SyntaxError
| SystemError (code : string).

Inductive result (A : Type) : Type :=
| Ok (a : A)
| Throw (e : exn).
Arguments Ok {A} a.
Arguments Throw {A} e.

Definition bind {A B} (m : result A) (f : A -> result B) : result B :=
  match m with
  | Ok a => f a
  | Throw e => Throw e
  end.

Notation "x <- m ;; k" := (bind m (fun x => k))
  (at level 61, m at next level, right associativity).

(** [try { body } catch (error) { handler }] *)
Definition try_catch {A} (body : result A) (handler : exn -> result A) : result A :=
  match body with
  | Ok a => Ok a
  | Throw e => handler e
  end.

(** ** JavaScript string and array primitives *)

(** [s.startsWith(p)] *)
Definition startsWith (s p : string) : bool := String.prefix p s.

(** [xs.includes(x)] on an array of strings *)
Definition includes (xs : list string) (x : string) : bool :=
  existsb (String.eqb x) xs.

(** [s.includes(sub)] on strings *)
Fixpoint str_includes (s sub : string) : bool :=
  if String.prefix sub s then true
  else match s with
       | EmptyString => false
       | String _ s' => str_includes s' sub
       end.

(** [s.split(sep)] for a one-character separator: never empty, the empty
    string gives one empty piece. *)
Fixpoint split (sep : ascii) (s : string) : list string :=
  match s with
  | EmptyString => [EmptyString]
  | String c s' =>
      if Ascii.eqb c sep then EmptyString :: split sep s'
      else match split sep s' with
           | x :: xs => String c x :: xs
           | [] => [String c EmptyString]
           end
  end.

(** [xs.push(x)] *)
Definition push {A} (xs : list A) (x : A) : list A := (xs ++ [x])%list.

(** [xs.join(sep)] *)
Definition join (sep : string) (xs : list string) : string := String.concat sep xs.

(** [s.repeat(n)] *)
Fixpoint repeat_str (s : string) (n : nat) : string :=
  match n with
  | O => EmptyString
  | S n' => s ++ repeat_str s n'
  end.

(** A template literal prints a missing value as [undefined]. *)
Definition tmpl (v : option string) : string :=
  match v with
  | Some s => s
  | None => "undefined"
  end.

(** Truthiness of a possibly missing string: [undefined] and the empty
    string are falsy. *)
Definition truthy (v : option string) : bool :=
  match v with
  | Some EmptyString => false
  | Some _ => true
  | None => false
  end.

(** Decimal rendering of a number inside a template literal. *)
Fixpoint digits (fuel n : nat) (acc : string) : string :=
  match fuel with
  | O => acc
  | S fuel' =>
      let d := String (ascii_of_nat (48 + n mod 10)) acc in
      if Nat.ltb n 10 then d else digits fuel' (n / 10) d
  end.

Definition string_of_nat (n : nat) : string := digits (S n) n EmptyString.

(** ** [path] (POSIX) *)

Module Path.

Definition slash : ascii := "/"%char.
Definition dot : ascii := "."%char.

(** [path.join(a, b)] where [b] is a directory entry name (not empty, no
    separator, neither [.] nor [..]) and [a] is empty or already
    normalised: an empty first part is dropped. *)
Definition join (a b : string) : string :=
  match a with
  | EmptyString => b
  | _ => a ++ "/" ++ b
  end.

(** [path.basename(p)] for a path that does not end with a separator:
    the part after the last separator. *)
Definition basename (p : string) : string := last (split slash p) EmptyString.

(** The suffix of [s] that starts at its last dot. *)
Fixpoint last_dot (s : string) : option string :=
  match s with
  | EmptyString => None
  | String c s' =>
      match last_dot s' with
      | Some e => Some e
      | None => if Ascii.eqb c dot then Some s else None
      end
  end.

(** [path.extname(p)]: from the last dot of the base name to its end;
    empty when there is no dot or when the last dot is the first
    character of the base name (the base name is not [..]). *)
Definition extname (p : string) : string :=
  let b := basename p in
  match last_dot b with
  | Some e => if String.eqb e b then EmptyString else e
  | None => EmptyString
  end.

End Path.

(** ** Configuration *)

Record Config : Type := mkConfig {
  excludePaths : list string;
  excludeFiles : list string;
  includeExtensions : list string
}.

Definition DEFAULT_CONFIG : Config := {|
  excludePaths := ["node_modules"];
  excludeFiles := ["package-lock.json"];
  includeExtensions := [".js"; ".mjs"; ".cjs"; ".json"]
|}.

(** The object [JSON.parse] returns for [.code-structure.json]: each
    recognised field is a list of strings or is absent. *)
Record ConfigFile : Type := mkConfigFile {
  cf_excludePaths : option (list string);
  cf_excludeDirs : option (list string);
  cf_excludeFiles : option (list string);
  cf_includeExtensions : option (list string)
}.

(** What [loadConfig] finds at the scan root. *)
Inductive ConfigSource : Type :=
| NoConfigFile                      (* [fs.existsSync] is false *)
| BadConfigFile (e : exn)           (* [readFileSync] or [JSON.parse] throws *)
| ParsedConfigFile (config : ConfigFile).

(** [a || b] where [a] is an array or missing: an array is truthy even
    when it is empty. *)
Definition or_else {A} (a : option A) (b : A) : A :=
  match a with
  | Some x => x
  | None => b
  end.

Definition loadConfig (src : ConfigSource) : Config :=
  match src with
  | ParsedConfigFile config =>
      {| excludePaths := (excludePaths DEFAULT_CONFIG
                            ++ or_else (cf_excludePaths config) []
                            ++ or_else (cf_excludeDirs config) [])%list;
         excludeFiles := (excludeFiles DEFAULT_CONFIG
                            ++ or_else (cf_excludeFiles config) [])%list;
         includeExtensions := or_else (cf_includeExtensions config)
                                      (includeExtensions DEFAULT_CONFIG) |}
  | _ =>
      {| excludePaths := excludePaths DEFAULT_CONFIG;
         excludeFiles := excludeFiles DEFAULT_CONFIG;
         includeExtensions := includeExtensions DEFAULT_CONFIG |}
  end.

(** The lines [loadConfig] writes with [console.warn]. *)
Definition loadConfig_warns (src : ConfigSource) : bool :=
  match src with
  | BadConfigFile _ => true
  | _ => false
  end.

(** ** Path filter *)

Section PathFilter.

Variable config : Config.

Definition shouldExcludePath (relativePath : string) : bool :=
  existsb (fun excludePath =>
    if String.eqb relativePath excludePath then true
    else if startsWith relativePath (excludePath ++ "/") then true
    else
      let pathParts := split Path.slash relativePath in
      includes pathParts excludePath)
    (excludePaths config).

Definition shouldExcludeFile (filePath : string) : bool :=
  let fileName := Path.basename filePath in
  includes (excludeFiles config) fileName.

End PathFilter.

(** ** Regular expressions

    The fragment of JavaScript regular expressions the script uses:
    character classes, sequence, alternation, greedy [?], greedy [*] and
    [+] over a character class, and capturing groups.  Matching is by
    backtracking with the priorities of the language: the left alternative
    first, the optional part first, the longest repetition first. *)

Module Regex.

Inductive regex : Type :=
| Eps
| Chr (p : ascii -> bool)
| Seq (r1 r2 : regex)
| Alt (r1 r2 : regex)
| Opt (r : regex)
| Star (p : ascii -> bool)
| Group (i : nat) (r : regex).

Definition Plus (p : ascii -> bool) : regex := Seq (Chr p) (Star p).

Fixpoint lit (s : string) : regex :=
  match s with
  | EmptyString => Eps
  | String c s' => Seq (Chr (Ascii.eqb c)) (lit s')
  end.

Definition seq (rs : list regex) : regex := fold_right Seq Eps rs.

(** [\s], on ASCII *)
Definition isSpace (c : ascii) : bool :=
  let n := nat_of_ascii c in
  (Nat.leb 9 n && Nat.leb n 13) || Nat.eqb n 32.

(** [\w] *)
Definition isWord (c : ascii) : bool :=
  let n := nat_of_ascii c in
  (Nat.leb 48 n && Nat.leb n 57)        (* 0-9 *)
  || (Nat.leb 65 n && Nat.leb n 90)     (* A-Z *)
  || (Nat.leb 97 n && Nat.leb n 122)    (* a-z *)
  || Nat.eqb n 95.                      (* _ *)

(** [[^c]] *)
Definition isNot (c : ascii) (x : ascii) : bool := negb (Ascii.eqb x c).

(** Captures: the last text each group matched. *)
Definition captures : Type := list (nat * string).

Fixpoint capture (i : nat) (c : captures) : option string :=
  match c with
  | [] => None
  | (j, s) :: c' => if Nat.eqb i j then Some s else capture i c'
  end.

(** The part of [s] consumed when [rest] is what remains of it. *)
Definition consumed (s rest : string) : string :=
  substring 0 (String.length s - String.length rest) s.

Definition cont : Type := string -> captures -> option (string * captures).

Fixpoint star (p : ascii -> bool) (s : string) (c : captures) (k : cont)
  : option (string * captures) :=
  match s with
  | String a s' =>
      if p a then
        match star p s' c k with
        | Some r => Some r
        | None => k s c
        end
      else k s c
  | EmptyString => k s c
  end.

Fixpoint run (r : regex) (s : string) (c : captures) (k : cont)
  : option (string * captures) :=
  match r with
  | Eps => k s c
  | Chr p =>
      match s with
      | String a s' => if p a then k s' c else None
      | EmptyString => None
      end
  | Seq r1 r2 => run r1 s c (fun s' c' => run r2 s' c' k)
  | Alt r1 r2 =>
      match run r1 s c k with
      | Some x => Some x
      | None => run r2 s c k
      end
  | Opt r1 =>
      match run r1 s c k with
      | Some x => Some x
      | None => k s c
      end
  | Star p => star p s c k
  | Group i r1 => run r1 s c (fun s' c' => k s' ((i, consumed s s') :: c'))
  end.

(** One match: element 0 of the array [exec] returns, and its groups. *)
Record rmatch : Type := mkMatch {
  fullMatch : string;
  groups : captures
}.

Definition group (i : nat) (m : rmatch) : option string := capture i (groups m).

(** A match that starts at the first character of [s]. *)
Definition match_here (r : regex) (s : string) : option rmatch :=
  match run r s [] (fun s' c' => Some (s', c')) with
  | Some (rest, c) => Some {| fullMatch := consumed s rest; groups := c |}
  | None => None
  end.

(** [r.exec(s)] from index 0: the leftmost match. *)
Fixpoint exec (r : regex) (s : string) : option rmatch :=
  match match_here r s with
  | Some m => Some m
  | None =>
      match s with
      | String _ s' => exec r s'
      | EmptyString => None
      end
  end.

(** The loop [while ((match = r.exec(s)) !== null)] with the [g] flag:
    all matches from left to right, each search starting where the
    previous match ended.  [skip] counts the characters of the last
    match that are still to be passed.  (An empty match would make the
    loop of the script run forever; no expression used here has one.) *)
Fixpoint exec_all_from (r : regex) (s : string) (skip : nat) : list rmatch :=
  match skip with
  | S n =>
      match s with
      | String _ s' => exec_all_from r s' n
      | EmptyString => []
      end
  | O =>
      match match_here r s with
      | Some m =>
          m :: match s with
               | String _ s' => exec_all_from r s' (String.length (fullMatch m) - 1)
               | EmptyString => []
               end
      | None =>
          match s with
          | String _ s' => exec_all_from r s' 0
          | EmptyString => []
          end
      end
  end.

Definition exec_all (r : regex) (s : string) : list rmatch := exec_all_from r s 0.

(** [s.split(r)[0]]: the text before the leftmost match of [r]. *)
Fixpoint split_first (r : regex) (s : string) : string :=
  match match_here r s with
  | Some _ => EmptyString
  | None =>
      match s with
      | String a s' => String a (split_first r s')
      | EmptyString => EmptyString
      end
  end.

(** [s.trim()] *)
Fixpoint trimStart (s : string) : string :=
  match s with
  | String a s' => if isSpace a then trimStart s' else s
  | EmptyString => EmptyString
  end.

Fixpoint trimEnd (s : string) : string :=
  match s with
  | String a s' =>
      match trimEnd s' with
      | EmptyString => if isSpace a then EmptyString else String a EmptyString
      | t => String a t
      end
  | EmptyString => EmptyString
  end.

Definition trim (s : string) : string := trimEnd (trimStart s).

End Regex.

(** ** Syntax trees (ESTree, as [acorn] builds them)

    One type of nodes, as in JavaScript; the constructor is the [type]
    field.  The kinds the script looks at have their own constructor,
    every other kind is [Other] with its children in the order the walker
    visits them (a [Program], a block and a class body are [Other]
    nodes).  The [value] of a [Literal] is the text a template literal
    prints for it. *)

Inductive node : Type :=
| Identifier (name : string)
| Literal (value : string)
| AssignmentPattern (left right : node)
| RestElement (argument : node)
| ObjectPattern (properties : list node)
| Property (key : node) (computed : bool) (value : node)
| ArrayPattern (elements : list node)
| FunctionDeclaration (id : option node) (params : list node) (async : bool) (body : node)
| FunctionExpression (id : option node) (params : list node) (async : bool) (body : node)
| ArrowFunctionExpression (params : list node) (async : bool) (body : node)
| MethodDefinition (key : node) (computed : bool) (value : node)
| VariableDeclaration (declarations : list node)
| VariableDeclarator (id : node) (init : option node)
| ExportNamedDeclaration (declaration : option node)
| ExportDefaultDeclaration (declaration : node)
| Other (type : string) (children : list node).

(** Field accesses; a field the node does not have is [undefined]. *)

Definition name_of (n : node) : option string :=
  match n with
  | Identifier name => Some name
  | _ => None
  end.

Definition value_of (n : node) : option string :=
  match n with
  | Literal value => Some value
  | _ => None
  end.

Definition key_of (n : node) : option node :=
  match n with
  | Property key _ _ => Some key
  | MethodDefinition key _ _ => Some key
  | _ => None
  end.

Definition params_of (n : node) : option (list node) :=
  match n with
  | FunctionDeclaration _ params _ _ => Some params
  | FunctionExpression _ params _ _ => Some params
  | ArrowFunctionExpression params _ _ => Some params
  | _ => None
  end.

Definition async_of (n : node) : bool :=
  match n with
  | FunctionDeclaration _ _ async _ => async
  | FunctionExpression _ _ async _ => async
  | ArrowFunctionExpression _ async _ => async
  | _ => false
  end.

Definition init_of (n : node) : option node :=
  match n with
  | VariableDeclarator _ init => init
  | _ => None
  end.

Definition id_of (n : node) : option node :=
  match n with
  | FunctionDeclaration id _ _ _ => id
  | FunctionExpression id _ _ _ => id
  | VariableDeclarator id _ => Some id
  | _ => None
  end.

(** [n.type === 'ArrowFunctionExpression' || n.type === 'FunctionExpression'] *)
Definition isFunctionValue (n : node) : bool :=
  match n with
  | ArrowFunctionExpression _ _ _ => true
  | FunctionExpression _ _ _ _ => true
  | _ => false
  end.

(** ** Parameter rendering *)

(** The callback of [params.map] in [extractParams]. *)
Definition renderParam (p : node) : string :=
  match p with
  | Identifier name => name
  | AssignmentPattern lhs _ => tmpl (name_of lhs) ++ " = ..."
  | RestElement argument => "..." ++ tmpl (name_of argument)
  | ObjectPattern properties =>
      match properties with
      | _ :: _ =>
          let props := map (fun prop =>
            match key_of prop with
            | Some key => if truthy (name_of key) then tmpl (name_of key) else "?"
            | None => "?"
            end) properties in
          "{" ++ join ", " props ++ "}"
      | [] => "{...}"
      end
  | ArrayPattern _ => "[...]"
  | _ => "?"
  end.

Definition extractParams (params : list node) : string :=
  join ", " (map renderParam params).

(** [extractParams(x.params)]: mapping over a missing [params] is a
    [TypeError]. *)
Definition extractParams_of (n : node) : result string :=
  match params_of n with
  | Some params => Ok (extractParams params)
  | None => Throw TypeError
  end.

Definition asyncPrefix (async : bool) : string := if async then "async " else "".

(** ** The walker ([simple] of [acorn-walk])

    [walk(ast, visitors)] walks the children of a node first, in the order
    of the library's base visitor, then calls the visitor registered for
    the type of the node.  The visitors of the script push onto the
    [signatures] array of the enclosing call: here each takes the array
    and returns it.  A visitor that throws ends the walk. *)

Definition visitor : Type := node -> list string -> result (list string).

Record visitors : Type := mkVisitors {
  on_FunctionDeclaration : visitor;
  on_MethodDefinition : visitor;
  on_VariableDeclarator : visitor;
  on_ExportNamedDeclaration : visitor;
  on_ExportDefaultDeclaration : visitor
}.

(** [xs.forEach(x => f(x))] over a body that updates [signatures] and may
    throw. *)
Fixpoint forEach {A} (f : A -> list string -> result (list string)) (xs : list A)
    (signatures : list string) : result (list string) :=
  match xs with
  | [] => Ok signatures
  | x :: xs' => s <- f x signatures ;; forEach f xs' s
  end.

(** [if (visitors[type]) visitors[type](node)] *)
Definition visit (v : visitors) (n : node) (signatures : list string)
  : result (list string) :=
  match n with
  | FunctionDeclaration _ _ _ _ => on_FunctionDeclaration v n signatures
  | MethodDefinition _ _ _ => on_MethodDefinition v n signatures
  | VariableDeclarator _ _ => on_VariableDeclarator v n signatures
  | ExportNamedDeclaration _ => on_ExportNamedDeclaration v n signatures
  | ExportDefaultDeclaration _ => on_ExportDefaultDeclaration v n signatures
  | _ => Ok signatures
  end.

Definition opt_list {A} (o : option A) : list A :=
  match o with
  | Some x => [x]
  | None => []
  end.

(** The children of a node, in the order the base visitor walks them. *)
Definition children (n : node) : list node :=
  match n with
  | Identifier _ | Literal _ => []
  | AssignmentPattern lhs rhs => [lhs; rhs]
  | RestElement argument => [argument]
  | ObjectPattern properties => properties
  | Property key computed value => (if computed then [key] else []) ++ [value]
  | ArrayPattern elements => elements
  | FunctionDeclaration id params _ body => opt_list id ++ params ++ [body]
  | FunctionExpression id params _ body => opt_list id ++ params ++ [body]
  | ArrowFunctionExpression params _ body => params ++ [body]
  | MethodDefinition key computed value => (if computed then [key] else []) ++ [value]
  | VariableDeclaration declarations => declarations
  | VariableDeclarator id init => id :: opt_list init
  | ExportNamedDeclaration declaration => opt_list declaration
  | ExportDefaultDeclaration declaration => [declaration]
  | Other _ children => children
  end%list.

Fixpoint walk (v : visitors) (n : node) (signatures : list string) {struct n}
  : result (list string) :=
  let walk_list :=
    fix walk_list (ns : list node) (signatures : list string) {struct ns}
      : result (list string) :=
      match ns with
      | [] => Ok signatures
      | x :: ns' => s <- walk v x signatures ;; walk_list ns' s
      end in
  let walk_opt (o : option node) (signatures : list string) :=
    match o with
    | Some x => walk v x signatures
    | None => Ok signatures
    end in
  s <- match n with
       | Identifier _ | Literal _ => Ok signatures
       | AssignmentPattern lhs rhs =>
           s <- walk v lhs signatures ;; walk v rhs s
       | RestElement argument => walk v argument signatures
       | ObjectPattern properties => walk_list properties signatures
       | Property key computed value =>
           s <- (if computed then walk v key signatures else Ok signatures) ;;
           walk v value s
       | ArrayPattern elements => walk_list elements signatures
       | FunctionDeclaration id params _ body =>
           s <- walk_opt id signatures ;;
           s <- walk_list params s ;;
           walk v body s
       | FunctionExpression id params _ body =>
           s <- walk_opt id signatures ;;
           s <- walk_list params s ;;
           walk v body s
       | ArrowFunctionExpression params _ body =>
           s <- walk_list params signatures ;;
           walk v body s
       | MethodDefinition key computed value =>
           s <- (if computed then walk v key signatures else Ok signatures) ;;
           walk v value s
       | VariableDeclaration declarations => walk_list declarations signatures
       | VariableDeclarator id init =>
           s <- walk v id signatures ;;
           walk_opt init s
       | ExportNamedDeclaration declaration => walk_opt declaration signatures
       | ExportDefaultDeclaration declaration => walk v declaration signatures
       | Other _ children => walk_list children signatures
       end ;;
  visit v n s.

(** ** The structural strategy *)

Section Visitors.

Variable includeAllMethods : bool.

Definition visit_FunctionDeclaration : visitor := fun n signatures =>
  match id_of n with
  | Some id =>
      if includeAllMethods && truthy (name_of id) then
        params <- extractParams_of n ;;
        let prefix := asyncPrefix (async_of n) in
        Ok (push signatures (prefix ++ tmpl (name_of id) ++ "(" ++ params ++ ")"))
      else Ok signatures
  | None => Ok signatures
  end.

Definition visit_MethodDefinition : visitor := fun n signatures =>
  if includeAllMethods then
    match n with
    | MethodDefinition key _ value =>
        let methodName := if truthy (name_of key) then name_of key else value_of key in
        params <- extractParams_of value ;;
        let prefix := asyncPrefix (async_of value) in
        Ok (push signatures (prefix ++ tmpl methodName ++ "(" ++ params ++ ")"))
    | _ => Throw TypeError
    end
  else Ok signatures.

Definition visit_VariableDeclarator : visitor := fun n signatures =>
  match id_of n, init_of n with
  | Some id, Some init =>
      if includeAllMethods && truthy (name_of id) && isFunctionValue init then
        params <- extractParams_of init ;;
        let prefix := asyncPrefix (async_of init) in
        Ok (push signatures (prefix ++ tmpl (name_of id) ++ "(" ++ params ++ ")"))
      else Ok signatures
  | _, _ => Ok signatures
  end.

(** The callback of [node.declaration.declarations.forEach]. *)
Definition visit_exported_declarator : visitor := fun declarator signatures =>
  match init_of declarator with
  | Some init =>
      if isFunctionValue init then
        id <- match id_of declarator with
              | Some id => Ok id
              | None => Throw TypeError
              end ;;
        let name := name_of id in
        params <- extractParams_of init ;;
        let prefix := asyncPrefix (async_of init) in
        Ok (push signatures ("export " ++ prefix ++ tmpl name ++ "(" ++ params ++ ")"))
      else Ok signatures
  | None => Ok signatures
  end.

Definition visit_ExportNamedDeclaration : visitor := fun n signatures =>
  match n with
  | ExportNamedDeclaration (Some (FunctionDeclaration id params async _)) =>
      name <- match id with
              | Some id => Ok (name_of id)
              | None => Throw TypeError       (* [null.name] *)
              end ;;
      let params := extractParams params in
      let prefix := asyncPrefix async in
      Ok (push signatures ("export " ++ prefix ++ tmpl name ++ "(" ++ params ++ ")"))
  | ExportNamedDeclaration (Some (VariableDeclaration declarations)) =>
      forEach visit_exported_declarator declarations signatures
  | _ => Ok signatures
  end.

Definition visit_ExportDefaultDeclaration : visitor := fun n signatures =>
  match n with
  | ExportDefaultDeclaration (FunctionDeclaration id params async _) =>
      let name := match id with
                  | Some id => tmpl (name_of id)
                  | None => "default"
                  end in
      let params := extractParams params in
      let prefix := asyncPrefix async in
      Ok (push signatures ("export default " ++ prefix ++ name ++ "(" ++ params ++ ")"))
  | ExportDefaultDeclaration (ArrowFunctionExpression params async _)
  | ExportDefaultDeclaration (FunctionExpression _ params async _) =>
      let params := extractParams params in
      let prefix := asyncPrefix async in
      Ok (push signatures ("export default " ++ prefix ++ "function(" ++ params ++ ")"))
  | _ => Ok signatures
  end.

(** The object of visitors passed to [walk]. *)
Definition signatureVisitors : visitors := {|
  on_FunctionDeclaration := visit_FunctionDeclaration;
  on_MethodDefinition := visit_MethodDefinition;
  on_VariableDeclarator := visit_VariableDeclarator;
  on_ExportNamedDeclaration := visit_ExportNamedDeclaration;
  on_ExportDefaultDeclaration := visit_ExportDefaultDeclaration
|}.

End Visitors.

(** ** The textual fallback *)

Module Patterns.
Import Regex.

(** In the sources quoted below the repetition of the class [[^)]] is
    written [{0,}], which is how the star reads in full. *)

Definition sp0 : regex := Star isSpace.
Definition sp1 : regex := Plus isSpace.
Definition word1 : regex := Plus isWord.
Definition args : regex := Star (isNot ")"%char).
Definition asyncOpt : regex := Opt (seq [lit "async"; sp1]).
Definition defaultOpt : regex := Opt (seq [lit "default"; sp1]).
Definition declKeyword : regex := Alt (lit "const") (Alt (lit "let") (lit "var")).

(** Source: [/(?:export\s+(?:default\s+)?)?(?:async\s+)?function\s+(\w+)\s*\(([^)]{0,})\)/g] *)
Definition functionRegex : regex :=
  seq [Opt (seq [lit "export"; sp1; defaultOpt]); asyncOpt;
       lit "function"; sp1; Group 1 word1; sp0; lit "("; Group 2 args; lit ")"].

(** Source: [/(?:export\s+(?:default\s+)?)?(?:const|let|var)\s+(\w+)\s*=\s*(?:async\s+)?\(([^)]{0,})\)\s*=>/g] *)
Definition arrowRegex : regex :=
  seq [Opt (seq [lit "export"; sp1; defaultOpt]); declKeyword; sp1;
       Group 1 word1; sp0; lit "="; sp0; asyncOpt;
       lit "("; Group 2 args; lit ")"; sp0; lit "=>"].

(** Source: [/export\s+(?:default\s+)?(?:async\s+)?function\s+(\w+)\s*\(([^)]{0,})\)/g] *)
Definition exportedFunctionRegex : regex :=
  seq [lit "export"; sp1; defaultOpt; asyncOpt;
       lit "function"; sp1; Group 1 word1; sp0; lit "("; Group 2 args; lit ")"].

(** Source: [/export\s+(?:default\s+)?(?:const|let|var)\s+(\w+)\s*=\s*(async\s+)?\(([^)]{0,})\)\s*=>/g] *)
Definition exportedArrowRegex : regex :=
  seq [lit "export"; sp1; defaultOpt; declKeyword; sp1;
       Group 1 word1; sp0; lit "="; sp0; Opt (Group 2 (seq [lit "async"; sp1]));
       lit "("; Group 3 args; lit ")"; sp0; lit "=>"].

(** Source: [/export\s*\{\s*([^}]+)\s*\}/g] *)
Definition exportListRegex : regex :=
  seq [lit "export"; sp0; lit "{"; sp0; Group 1 (Plus (isNot "}"%char)); sp0; lit "}"].

(** Source: [/\s+as\s+/] *)
Definition asRegex : regex := seq [sp1; lit "as"; sp1].

(** The expression built by [new RegExp] around an exported name, when
    the name is made of ordinary characters; with NAME for the name,
    [(?:async\s+)?function\s+NAME\s*\(([^)]{0,})\)|(?:const|let|var)\s+NAME\s*=\s*(?:async\s+)?\(([^)]{0,})\)\s*=>] *)
Definition funcDefRegex (name : string) : regex :=
  Alt (seq [asyncOpt; lit "function"; sp1; lit name; sp0;
            lit "("; Group 1 args; lit ")"])
      (seq [declKeyword; sp1; lit name; sp0; lit "="; sp0; asyncOpt;
            lit "("; Group 2 args; lit ")"; sp0; lit "=>"]).

(** The characters with a meaning of their own in a pattern. *)
Definition isSyntaxChar (c : ascii) : bool :=
  existsb (Ascii.eqb c) (list_ascii_of_string "^$\.*+?()[]{}|").

Definition isOrdinary (name : string) : bool :=
  forallb (fun c => negb (isSyntaxChar c)) (list_ascii_of_string name).

End Patterns.

Section Fallback.

(** [new RegExp(...)] on a name that contains pattern syntax: the
    constructor throws a [SyntaxError] or returns an expression, given
    here by its leftmost match in a text. *)
Variable compileFuncDef : string -> result (string -> option Regex.rmatch).

Definition newFuncDefRegExp (name : string) : result (string -> option Regex.rmatch) :=
  if Patterns.isOrdinary name then Ok (Regex.exec (Patterns.funcDefRegex name))
  else compileFuncDef name.

(** [a || b] on captured groups *)
Definition or_group (a b : option string) : option string :=
  if truthy a then a else b.

Definition exportPrefixOf (isExported : bool) : string :=
  if isExported then "export " else "".

(** Body of the two loops of the [includeAllMethods] branch. *)
Definition signature_all (m : Regex.rmatch) : string :=
  let name := Regex.group 1 m in
  let params := Regex.group 2 m in
  let isExported := str_includes (Regex.fullMatch m) "export" in
  let prefix := exportPrefixOf isExported in
  prefix ++ tmpl name ++ "(" ++ tmpl params ++ ")".

(** Body of the loop over [exportedFunctionRegex]. *)
Definition signature_exportedFunction (m : Regex.rmatch) : string :=
  let name := Regex.group 1 m in
  let params := Regex.group 2 m in
  let isDefault := str_includes (Regex.fullMatch m) "default" in
  let isAsync := str_includes (Regex.fullMatch m) "async" in
  let asyncPrefix := if isAsync then "async " else "" in
  let exportPrefix := if isDefault then "export default " else "export " in
  exportPrefix ++ asyncPrefix ++ tmpl name ++ "(" ++ tmpl params ++ ")".

(** Body of the loop over [exportedArrowRegex]. *)
Definition signature_exportedArrow (m : Regex.rmatch) : string :=
  let name := Regex.group 1 m in
  let asyncKeyword := Regex.group 2 m in
  let params := Regex.group 3 m in
  let isDefault := str_includes (Regex.fullMatch m) "default" in
  let asyncPrefix := if truthy asyncKeyword then "async " else "" in
  let exportPrefix := if isDefault then "export default " else "export " in
  exportPrefix ++ asyncPrefix ++ tmpl name ++ "(" ++ tmpl params ++ ")".

(** The names of an export list: the pieces between commas, each trimmed,
    cut before its [as] clause and trimmed again. *)
Definition exportedNames (exportList : string) : list string :=
  map (fun name => Regex.trim (Regex.split_first Patterns.asRegex (Regex.trim name)))
      (split ","%char exportList).

(** The callback of [names.forEach]: the first definition found for the
    name, if any. *)
Definition signature_exportedName (fileContent : string) (name : string)
    (methodSignatures : list string) : result (list string) :=
  funcDefExec <- newFuncDefRegExp name ;;
  match funcDefExec fileContent with
  | Some funcMatch =>
      let params := tmpl (or_group (or_group (Regex.group 1 funcMatch)
                                             (Regex.group 2 funcMatch))
                                   (Some "")) in
      let isAsync := str_includes (Regex.fullMatch funcMatch) "async" in
      let asyncPrefix := if isAsync then "async " else "" in
      Ok (push methodSignatures ("export " ++ asyncPrefix ++ name ++ "(" ++ params ++ ")"))
  | None => Ok methodSignatures
  end.

Definition extractMethodsFromRawContent (fileContent : string) (includeAllMethods : bool)
  : result (list string) :=
  let methodSignatures : list string := [] in
  if includeAllMethods then
    let methodSignatures :=
      (methodSignatures
         ++ map signature_all (Regex.exec_all Patterns.functionRegex fileContent))%list in
    let methodSignatures :=
      (methodSignatures
         ++ map signature_all (Regex.exec_all Patterns.arrowRegex fileContent))%list in
    Ok methodSignatures
  else
    let methodSignatures :=
      (methodSignatures
         ++ map signature_exportedFunction
                (Regex.exec_all Patterns.exportedFunctionRegex fileContent))%list in
    let methodSignatures :=
      (methodSignatures
         ++ map signature_exportedArrow
                (Regex.exec_all Patterns.exportedArrowRegex fileContent))%list in
    forEach (fun m sigs =>
               let exportList := tmpl (Regex.group 1 m) in
               let names := exportedNames exportList in
               forEach (signature_exportedName fileContent) names sigs)
            (Regex.exec_all Patterns.exportListRegex fileContent)
            methodSignatures.

End Fallback.

(** ** Signature extraction *)

Section Extractor.

(** [fs.readFileSync(path, 'utf8')] *)
Variable readFileSync : string -> result string.
(** [parse] of [acorn]: the syntax tree of a module, or a [SyntaxError]. *)
Variable parse : string -> result node.
Variable compileFuncDef : string -> result (string -> option Regex.rmatch).

Definition extractMethodSignatures (filePath : string) (includeAllMethods : bool)
  : result (list string) :=
  try_catch
    (fileContent <- readFileSync filePath ;;
     let signatures : list string := [] in
     try_catch
       (ast <- parse fileContent ;;
        walk (signatureVisitors includeAllMethods) ast signatures)
       (fun parseError =>
          extractMethodsFromRawContent compileFuncDef fileContent includeAllMethods))
    (fun error => Ok []).

End Extractor.

(** ** The revision of the script without the [--all-methods] flag

    The extractor of that revision takes the path only: every declaration
    is reported, and the fallback has two expressions. *)

Module Legacy.

Definition visit_FunctionDeclaration : visitor := fun n signatures =>
  match id_of n with
  | Some id =>
      if truthy (name_of id) then
        params <- extractParams_of n ;;
        Ok (push signatures (tmpl (name_of id) ++ "(" ++ params ++ ")"))
      else Ok signatures
  | None => Ok signatures
  end.

(** The next two visitors are those of the later revision with the flag
    set. *)
Definition visit_MethodDefinition : visitor := visit_MethodDefinition true.

Definition visit_VariableDeclarator : visitor := visit_VariableDeclarator true.

Definition visit_ExportNamedDeclaration : visitor := fun n signatures =>
  match n with
  | ExportNamedDeclaration (Some (FunctionDeclaration id params async _)) =>
      name <- match id with
              | Some id => Ok (name_of id)
              | None => Throw TypeError
              end ;;
      let params := extractParams params in
      let prefix := asyncPrefix async in
      Ok (push signatures ("export " ++ prefix ++ tmpl name ++ "(" ++ params ++ ")"))
  | _ => Ok signatures
  end.

Definition visit_ExportDefaultDeclaration : visitor := fun n signatures =>
  match n with
  | ExportDefaultDeclaration (FunctionDeclaration id params async _) =>
      let name := match id with
                  | Some id => tmpl (name_of id)
                  | None => "default"
                  end in
      let params := extractParams params in
      let prefix := asyncPrefix async in
      Ok (push signatures ("export default " ++ prefix ++ name ++ "(" ++ params ++ ")"))
  | _ => Ok signatures
  end.

Definition signatureVisitors : visitors := {|
  on_FunctionDeclaration := visit_FunctionDeclaration;
  on_MethodDefinition := visit_MethodDefinition;
  on_VariableDeclarator := visit_VariableDeclarator;
  on_ExportNamedDeclaration := visit_ExportNamedDeclaration;
  on_ExportDefaultDeclaration := visit_ExportDefaultDeclaration
|}.

Import Regex Patterns.

(** Source: [/(?:export\s+)?(?:async\s+)?function\s+(\w+)\s*\(([^)]{0,})\)/g] *)
Definition functionRegex : regex :=
  seq [Opt (seq [lit "export"; sp1]); asyncOpt;
       lit "function"; sp1; Group 1 word1; sp0; lit "("; Group 2 args; lit ")"].

(** Source: [/(?:const|let|var)\s+(\w+)\s*=\s*(?:async\s+)?\(([^)]{0,})\)\s*=>/g] *)
Definition arrowRegex : regex :=
  seq [declKeyword; sp1; Group 1 word1; sp0; lit "="; sp0; asyncOpt;
       lit "("; Group 2 args; lit ")"; sp0; lit "=>"].

(** Body of both loops. *)
Definition signature_of (m : rmatch) : string :=
  let name := group 1 m in
  let params := group 2 m in
  tmpl name ++ "(" ++ tmpl params ++ ")".

Definition extractMethodsFromRawContent (fileContent : string) : list string :=
  let methodSignatures : list string := [] in
  let methodSignatures :=
    (methodSignatures ++ map signature_of (exec_all functionRegex fileContent))%list in
  let methodSignatures :=
    (methodSignatures ++ map signature_of (exec_all arrowRegex fileContent))%list in
  methodSignatures.

Section Extractor.

Variable readFileSync : string -> result string.
Variable parse : string -> result node.

Definition extractMethodSignatures (filePath : string) : result (list string) :=
  try_catch
    (fileContent <- readFileSync filePath ;;
     let signatures : list string := [] in
     try_catch
       (ast <- parse fileContent ;;
        walk signatureVisitors ast signatures)
       (fun parseError => Ok (extractMethodsFromRawContent fileContent)))
    (fun error => Ok []).

End Extractor.

End Legacy.

(** ** The file system

    A directory is the list of its entries, in the order [readdirSync]
    returns them, or cannot be listed ([ClosedDirectory]).  [statSync]
    follows links, so it throws on an entry whose target is missing
    ([Dangling]); [readFileSync] gives the text of a file or throws.  The
    entries of a directory have distinct names. *)

Inductive entry : Type :=
| File (name : string) (content : result string)
| Directory (name : string) (items : list entry)
| ClosedDirectory (name : string) (e : exn)
| Dangling (name : string) (e : exn).

Definition entry_name (e : entry) : string :=
  match e with
  | File name _ => name
  | Directory name _ => name
  | ClosedDirectory name _ => name
  | Dangling name _ => name
  end.

(** [fs.statSync(p).isDirectory()] *)
Definition statSync_isDirectory (e : entry) : result bool :=
  match e with
  | File _ _ => Ok false
  | Directory _ _ => Ok true
  | ClosedDirectory _ _ => Ok true
  | Dangling _ e => Throw e
  end.

(** [fs.readFileSync(p, 'utf8')] *)
Definition readFileSync_entry (e : entry) : result string :=
  match e with
  | File _ content => content
  | Directory _ _ => Throw (SystemError "EISDIR")
  | ClosedDirectory _ _ => Throw (SystemError "EISDIR")
  | Dangling _ e => Throw e
  end.

(** ** Array helpers of the traversal *)

(** [xs.filter(f)] where [f] may throw *)
Fixpoint filterM {A} (f : A -> result bool) (xs : list A) : result (list A) :=
  match xs with
  | [] => Ok []
  | x :: xs' =>
      b <- f x ;;
      rest <- filterM f xs' ;;
      Ok (if b then x :: rest else rest)
  end.

(** [xs.sort()]: ascending order of the names, compared by character
    code. *)
Fixpoint insert_by {A} (key : A -> string) (x : A) (xs : list A) : list A :=
  match xs with
  | [] => [x]
  | y :: ys => if String.leb (key x) (key y) then x :: y :: ys
               else y :: insert_by key x ys
  end.

Fixpoint sort_by {A} (key : A -> string) (xs : list A) : list A :=
  match xs with
  | [] => []
  | x :: xs' => insert_by key x (sort_by key xs')
  end.

(** [xs.forEach((x, index) => { output += f(x, index === xs.length - 1) })]
    where [f] may throw. *)
Fixpoint forEach_last {A} (f : A -> bool -> result string) (xs : list A) : result string :=
  match xs with
  | [] => Ok ""
  | x :: xs' =>
      let isLast := match xs' with [] => true | _ :: _ => false end in
      out <- f x isLast ;;
      rest <- forEach_last f xs' ;;
      Ok (out ++ rest)
  end.

(** The same loop for a body that cannot throw. *)
Fixpoint concat_last {A} (f : A -> bool -> string) (xs : list A) : string :=
  match xs with
  | [] => ""
  | x :: xs' =>
      let isLast := match xs' with [] => true | _ :: _ => false end in
      f x isLast ++ concat_last f xs'
  end.

(** ** Tree drawing characters *)

Module TREE_CHARS.
Definition VERTICAL : string := "│".
Definition HORIZONTAL : string := "─".
Definition JUNCTION : string := "├".
Definition CORNER : string := "└".
Definition SPACE : string := " ".
End TREE_CHARS.

Definition nl : string := String (ascii_of_nat 10) EmptyString.

(** ** The tree generator *)

Section Tree.

(** Run parameters set from the command line. *)
Variable maxDepth : option Z.          (* [None] is [Infinity] *)
Variable showMethods : bool.
Variable showAllMethods : bool.
(** What [loadConfig(customRootDir)] finds; the same at every call. *)
Variable configSource : ConfigSource.
Variable parse : string -> result node.
Variable compileFuncDef : string -> result (string -> option Regex.rmatch).

(** An entry of the directory being listed, with the function that
    generates the tree below it. *)
Definition subtree : Type := string -> nat -> string -> bool -> string -> result string.
Definition listed : Type := (entry * subtree)%type.

Definition item_name (it : listed) : string := entry_name (fst it).

(** [level > maxDepth] *)
Definition beyondMaxDepth (level : nat) : bool :=
  match maxDepth with
  | Some d => Z.ltb d (Z.of_nat level)
  | None => false
  end.

Definition isHidden (item : string) : bool := startsWith item ".".

Definition isScriptExtension (ext : string) : bool :=
  String.eqb ext ".js" || String.eqb ext ".mjs" || String.eqb ext ".cjs".

(** The lines of the signatures of one file. *)
Definition methodLines (methodPrefix : string) (methods : list string) : string :=
  concat_last (fun method isLastMethod =>
    let methodBranch := if isLastMethod then TREE_CHARS.CORNER else TREE_CHARS.JUNCTION in
    methodPrefix ++ methodBranch ++ TREE_CHARS.HORIZONTAL ++ " " ++ method ++ nl)
    methods.

(** What the [try] block of a file adds to [output], with its [catch]. *)
Definition fileDetails (config : Config) (e : entry) (itemPath prefix : string)
    (isLastItem : bool) : string :=
  match (stats <- statSync_isDirectory e ;; readFileSync_entry e) with
  | Throw error => " (error reading file)" ++ nl
  | Ok fileContent =>
      let lineCount := List.length (split (ascii_of_nat 10) fileContent) in
      let output := " (" ++ string_of_nat lineCount ++ " lines)" ++ nl in
      if showMethods then
        let ext := Path.extname itemPath in
        if includes (includeExtensions config) ext && isScriptExtension ext then
          match extractMethodSignatures (fun _ => readFileSync_entry e) parse
                  compileFuncDef itemPath showAllMethods with
          | Ok methods =>
              match methods with
              | _ :: _ =>
                  let methodPrefix :=
                    prefix ++ (if isLastItem then "   " else TREE_CHARS.VERTICAL ++ "  ") in
                  output ++ methodLines methodPrefix methods
              | [] => output
              end
          | Throw error => output ++ " (error reading file)" ++ nl
          end
        else output
      else output
  end.

(** [files]: the entries that are not directories, not hidden and not
    excluded by name, sorted. *)
Definition listFiles (config : Config) (dirPath : string) (items : list listed)
  : result (list listed) :=
  files <- filterM (fun it =>
             let item := item_name it in
             let itemPath := Path.join dirPath item in
             isDirectory <- statSync_isDirectory (fst it) ;;
             Ok (negb isDirectory && negb (isHidden item)
                 && negb (shouldExcludeFile config itemPath))) items ;;
  Ok (sort_by item_name files).

(** [dirs]: the directories that are not hidden and not excluded by
    path, sorted. *)
Definition listDirs (config : Config) (relativePath : string) (items : list listed)
  : result (list listed) :=
  dirs <- filterM (fun it =>
            let item := item_name it in
            let itemRelativePath := Path.join relativePath item in
            isDirectory <- statSync_isDirectory (fst it) ;;
            Ok (isDirectory && negb (isHidden item)
                && negb (shouldExcludePath config itemRelativePath))) items ;;
  Ok (sort_by item_name dirs).

Definition allItems (config : Config) (dirPath relativePath : string)
    (items : list listed) : result (list listed) :=
  files <- listFiles config dirPath items ;;
  dirs <- listDirs config relativePath items ;;
  Ok (dirs ++ files)%list.

(** The body of [allItems.forEach]. *)
Definition renderItem (config : Config) (dirPath : string) (level : nat)
    (relativePath prefix : string) (it : listed) (isLastItem : bool) : result string :=
  let item := item_name it in
  let itemPath := Path.join dirPath item in
  let itemRelativePath := Path.join relativePath item in
  isDirectory <- statSync_isDirectory (fst it) ;;
  let branch := if isLastItem then TREE_CHARS.CORNER else TREE_CHARS.JUNCTION in
  let connector := repeat_str TREE_CHARS.HORIZONTAL 2 in
  let output := prefix ++ branch ++ connector ++ " " ++ item in
  if isDirectory then
    let newPrefix := prefix ++ (if isLastItem then "   " else TREE_CHARS.VERTICAL ++ "  ") in
    below <- snd it itemPath (S level) itemRelativePath isLastItem newPrefix ;;
    Ok (output ++ "/" ++ nl ++ below)
  else
    Ok (output ++ fileDetails config (fst it) itemPath prefix isLastItem).

(** [generateTree] once the directory has been read. *)
Definition generateTree_in (readdir : result (list listed)) (dirPath : string)
    (level : nat) (relativePath : string) (isLast : bool) (prefix : string)
  : result string :=
  let config := loadConfig configSource in
  if beyondMaxDepth level then Ok ""
  else if Nat.ltb 0 level && shouldExcludePath config relativePath then Ok ""
  else
    items <- readdir ;;
    all <- allItems config dirPath relativePath items ;;
    forEach_last (renderItem config dirPath level relativePath prefix) all.

(** [generateTree(dirPath, level, relativePath, isLast, prefix)], where
    [dir] is the entry at [dirPath]; the argument of [generateTree_in] is
    [fs.readdirSync(dirPath)], each entry with the tree below it. *)
Fixpoint generateTree (dir : entry) : subtree :=
  generateTree_in
    (match dir with
     | Directory _ items => Ok (map (fun it => (it, generateTree it)) items)
     | File _ _ => Throw (SystemError "ENOTDIR")
     | ClosedDirectory _ e => Throw e
     | Dangling _ e => Throw e
     end).

(** The main program: [generateTree(customRootDir)]. *)
Definition main (customRootDir : string) (root : entry) : result string :=
  generateTree root customRootDir 0 "" true "".

End Tree.

(** ** The command line

    The statements at the top of the script that read [process.argv]:
    the loop over the arguments sets the variables of [Options]. *)

(** A decimal digit. *)
Definition isDigit (c : ascii) : bool :=
  let n := nat_of_ascii c in Nat.leb 48 n && Nat.leb n 57.

(** The value of the longest run of digits at the start of [s]; [acc] is
    the value read so far, [None] before the first digit. *)
Fixpoint digitsValue (s : string) (acc : option Z) : option Z :=
  match s with
  | String a s' =>
      if isDigit a
      then digitsValue s' (Some (10 * or_else acc 0 + Z.of_nat (nat_of_ascii a - 48))%Z)
      else acc
  | EmptyString => acc
  end.

(** [parseInt(s, 10)]: white space is skipped, then a sign is read, then
    the longest run of digits; [None] is [NaN], the result when there is
    no digit.  The script only compares the number with a level of the
    tree, so the integer stands for the number of JavaScript. *)
Definition parseInt (s : string) : option Z :=
  match Regex.trimStart s with
  | String "-" s' => option_map Z.opp (digitsValue s' None)
  | String "+" s' => digitsValue s' None
  | s' => digitsValue s' None
  end.

(** The variables set while the arguments are read. *)
Record Options : Type := mkOptions {
  opt_maxDepth : option Z;            (* [None] is [Infinity] *)
  opt_showHelp : bool;
  opt_showMethods : bool;
  opt_showAllMethods : bool;
  opt_positionalArgs : list string
}.

Definition initialOptions : Options := {|
  opt_maxDepth := None;
  opt_showHelp := false;
  opt_showMethods := true;
  opt_showAllMethods := false;
  opt_positionalArgs := []
|}.

(** A step of the script either goes on or ends the process with
    [process.exit(status)] after a message. *)
Inductive outcome (A : Type) : Type :=
| Continue (a : A)
| Exit (status : nat) (message : string).
Arguments Continue {A} a.
Arguments Exit {A} status message.

(** The loop [for (let i = 0; i < args.length; i++)], from the argument
    at index [i] on: [--depth] takes the next argument with [args[++i]],
    [break] leaves the loop with the options as they are. *)
Fixpoint processArgs (args : list string) (o : Options) : outcome Options :=
  match args with
  | [] => Continue o
  | arg :: rest =>
      if startsWith arg "--" || startsWith arg "-" then
        if String.eqb arg "--help" || String.eqb arg "-h" then
          Continue (mkOptions (opt_maxDepth o) true (opt_showMethods o)
                      (opt_showAllMethods o) (opt_positionalArgs o))
        else if String.eqb arg "--depth" || String.eqb arg "-d" then
          match rest with
          | value :: rest' =>
              match parseInt value with
              | Some maxDepth =>
                  processArgs rest'
                    (mkOptions (Some maxDepth) (opt_showHelp o) (opt_showMethods o)
                       (opt_showAllMethods o) (opt_positionalArgs o))
              | None => Exit 1 "Error: Depth must be a number"
              end
          | [] => Continue o
          end
        else if String.eqb arg "--no-methods" then
          processArgs rest
            (mkOptions (opt_maxDepth o) (opt_showHelp o) false
               (opt_showAllMethods o) (opt_positionalArgs o))
        else if String.eqb arg "--all-methods" then
          processArgs rest
            (mkOptions (opt_maxDepth o) (opt_showHelp o) (opt_showMethods o)
               true (opt_positionalArgs o))
        else processArgs rest o
      else
        processArgs rest
          (mkOptions (opt_maxDepth o) (opt_showHelp o) (opt_showMethods o)
             (opt_showAllMethods o) (push (opt_positionalArgs o) arg))
  end.

(** * Notions used in the statements *)

(** ** Path segments *)

(** [occurs c s]: the character [c] is one of the characters of [s]. *)
Fixpoint occurs (c : ascii) (s : string) : Prop :=
  match s with
  | EmptyString => False
  | String a s' => a = c \/ occurs c s'
  end.

(** [seg] is a whole segment of [path]: a piece without separator that
    lies between two separators, or between a separator and an end of
    [path]. *)
Definition is_segment (seg path : string) : Prop :=
  ~ occurs Path.slash seg /\
  exists pre post,
    path = pre ++ seg ++ post /\
    (pre = "" \/ exists p, pre = p ++ "/") /\
    (post = "" \/ exists q, post = "/" ++ q).

(** ** Signatures

    The Signature of the specification, and the line the script prints
    for it: export tag, async marker, name, parameter renderings. *)

Inductive ExportKind : Type := NotExported | NamedExport | DefaultExport.

Record Signature : Type := mkSignature {
  sig_name : string;
  sig_params : list string;
  sig_isAsync : bool;
  sig_exportKind : ExportKind
}.

Definition exportTag (k : ExportKind) : string :=
  match k with
  | NotExported => ""
  | NamedExport => "export "
  | DefaultExport => "export default "
  end.

Definition render_signature (sg : Signature) : string :=
  exportTag (sig_exportKind sg) ++ asyncPrefix (sig_isAsync sg) ++ sig_name sg
    ++ "(" ++ join ", " (sig_params sg) ++ ")".

(** ** Declarations as text *)

(** The head of an exported function declaration, written with single
    spaces: [export [default ][async ]function NAME(RAW)]. *)
Definition functionHead (isDefault isAsync : bool) (name raw : string) : string :=
  "export " ++ (if isDefault then "default " else "")
    ++ (if isAsync then "async " else "")
    ++ "function " ++ name ++ "(" ++ raw ++ ")".

(** The head of an exported variable bound to an arrow function:
    [export KEYWORD NAME = [async ](RAW) =>]. *)
Definition arrowHead (kw : string) (isAsync : bool) (name raw : string) : string :=
  "export " ++ kw ++ " " ++ name ++ " = "
    ++ (if isAsync then "async " else "") ++ "(" ++ raw ++ ") =>".

Module Matching.
Import Regex.

(** [accepts r w ok c c']: on a text that starts with [w] and goes on with
    a text satisfying [ok], the expression [r] consumes [w] first, turning
    the captures [c] into [c'], provided what follows in the pattern
    matches from there. *)
Definition accepts (r : regex) (w : string) (ok : string -> Prop) (c c' : captures)
  : Prop :=
  forall t k x, ok t -> k t c' = Some x -> run r (w ++ t) c k = Some x.

(** [rejects r ok]: [r] matches at the start of no text satisfying [ok]. *)
Definition rejects (r : regex) (ok : string -> Prop) : Prop :=
  forall t c k, ok t -> run r t c k = None.

(** The next character, if any, is not in the class [p]. *)
Definition stops (p : ascii -> bool) (t : string) : Prop :=
  match t with
  | EmptyString => True
  | String a _ => p a = false
  end.

(** All the characters of [w] are in the class [p]. *)
Definition all_in (p : ascii -> bool) (w : string) : bool :=
  forallb p (list_ascii_of_string w).

(** The text of an optional keyword, cut into keyword and space. *)
Definition optional (present : bool) (kw : string) : string :=
  if present then kw ++ " " ++ "" else "".

(** The three keywords of a variable declaration. *)
Definition isDeclKeyword (kw : string) : bool :=
  String.eqb kw "const" || String.eqb kw "let" || String.eqb kw "var".

(** The captures of the optional async keyword of an arrow function. *)
Definition asyncCapture (isAsync : bool) : captures :=
  if isAsync then [(2, "async ")] else [].

End Matching.

(** A name made of word characters, not empty. *)
Definition isIdentifierName (name : string) : bool :=
  negb (String.eqb name "") && Matching.all_in Regex.isWord name.

(** A text without closing parenthesis. *)
Definition isParameterText (raw : string) : bool :=
  Matching.all_in (Regex.isNot ")"%char) raw.

(** ** The tree *)

(** Ascending order of the keys, compared by character code. *)
Definition key_le {A} (key : A -> string) (x y : A) : Prop :=
  String.leb (key x) (key y) = true.

(** An entry that [statSync] reports as a directory, or as something
    else. *)
Definition is_dir (e : entry) : Prop := statSync_isDirectory e = Ok true.

(** Every entry below [e] can be examined: no link with a missing
    target, no directory that cannot be listed. *)
Fixpoint examinable (e : entry) : Prop :=
  match e with
  | File _ _ => True
  | Directory _ items =>
      (fix all (l : list entry) : Prop :=
         match l with
         | [] => True
         | x :: l' => examinable x /\ all l'
         end) items
  | ClosedDirectory _ _ => False
  | Dangling _ _ => False
  end.

(** The number of lines the script prints for a text. *)
Definition lineCount (fileContent : string) : nat :=
  List.length (split (ascii_of_nat 10) fileContent).

(** The part of a line of the tree that names an entry. *)
Definition itemHeader (prefix : string) (isLastItem : bool) (item : string) : string :=
  prefix ++ (if isLastItem then TREE_CHARS.CORNER else TREE_CHARS.JUNCTION)
    ++ repeat_str TREE_CHARS.HORIZONTAL 2 ++ " " ++ item.

(** The prefix of the lines below an entry. *)
Definition childPrefix (prefix : string) (isLastItem : bool) : string :=
  prefix ++ (if isLastItem then "   " else TREE_CHARS.VERTICAL ++ "  ").

(** ** Inputs of the examples *)

Definition emptyBlock : node := Other "BlockStatement" [].
Definition Program (body : list node) : node := Other "Program" body.

(** [export default () => {}] *)
Definition default_arrow_module : node :=
  Program [ExportDefaultDeclaration (ArrowFunctionExpression [] false emptyBlock)].

(** [export default async function () {}] *)
Definition default_async_function_module : node :=
  Program [ExportDefaultDeclaration (FunctionDeclaration None [] true emptyBlock)].

(** [export function f(a = 1) {}] *)
Definition exported_f_module : node :=
  Program [ExportNamedDeclaration
             (Some (FunctionDeclaration (Some (Identifier "f"))
                      [AssignmentPattern (Identifier "a") (Literal "1")]
                      false emptyBlock))].

(** [export default async function g() {}] *)
Definition default_async_g_module : node :=
  Program [ExportDefaultDeclaration
             (FunctionDeclaration (Some (Identifier "g")) [] true emptyBlock)].


(** A parser that rejects every text, and a pattern compiler that rejects
    every name. *)
Definition rejectText : string -> result node := fun _ => Throw SyntaxError.
Definition rejectAll : string -> result (string -> option Regex.rmatch) :=
  fun _ => Throw SyntaxError.

(** A configuration file that only sets [includeExtensions]. *)
Definition only_ts_config : ConfigFile :=
  mkConfigFile None None None (Some [".ts"]).

(** A directory [zzz] beside a file [aaa], and its entries as
    [readdirSync] lists them (nothing is generated below the empty
    directory). *)
Definition zzz_aaa : entry :=
  Directory "proj" [File "aaa" (Ok "one line"); Directory "zzz" []].


(** A readable script beside a link whose target is missing. *)
Definition with_dangling_link : entry :=
  Directory "proj" [File "a.js" (Ok "let x"); Dangling "link" (SystemError "ENOENT")].

(** ** The command line *)

(** An argument the loop reads as a flag. *)
Definition isFlag (arg : string) : bool := startsWith arg "--" || startsWith arg "-".

(** ** Syntax trees *)

(** [d] is [n] or one of the nodes the walker reaches below [n]. *)
Inductive within (d : node) : node -> Prop :=
| within_here : within d d
| within_child (c n : node) : In c (children n) -> within d c -> within d n.

(** The two kinds of export declaration. *)
Definition isExport (n : node) : bool :=
  match n with
  | ExportNamedDeclaration _ | ExportDefaultDeclaration _ => true
  | _ => false
  end.

(** The fields the visitors read without a test, as [acorn] fills them:
    the value of a method is a function, and a function declaration
    under a named export has a name. *)
Definition shaped (n : node) : bool :=
  match n with
  | MethodDefinition _ _ value =>
      match params_of value with Some _ => true | None => false end
  | ExportNamedDeclaration (Some (FunctionDeclaration None _ _ _)) => false
  | _ => true
  end.

(** A step that only appends to the array it is given: from [s] it gives
    [s] followed by what it gives from the empty array, and it throws
    from [s] when it throws from the empty array. *)
Definition appending {A} (f : A -> list string -> result (list string)) : Prop :=
  forall x s, f x s = (added <- f x [] ;; Ok (s ++ added)%list).

(** A signature that carries the export tag. *)
Definition exportTagged (signature : string) : Prop :=
  startsWith signature "export " = true.

(** [function helper(x) {}] and [class A { run() {} }], nothing
    exported. *)
Definition unexported_module : node :=
  Program [FunctionDeclaration (Some (Identifier "helper")) [Identifier "x"] false emptyBlock;
           Other "ClassDeclaration"
             [Identifier "A";
              Other "ClassBody"
                [MethodDefinition (Identifier "run") false
                   (FunctionExpression None [] false emptyBlock)]]].

(** ** Declarations as text *)

(** The head of a function declaration, exported or not, written with
    single spaces: [[export [default ]][async ]function NAME(RAW)]. *)
Definition declarationHead (exported isDefault isAsync : bool) (name raw : string)
  : string :=
  (if exported then "export " ++ (if isDefault then "default " else "") else "")
    ++ (if isAsync then "async " else "")
    ++ "function " ++ name ++ "(" ++ raw ++ ")".

(** The text of the optional export marker, cut into its pieces. *)
Definition exportMarker (exported isDefault : bool) : string :=
  if exported then "export" ++ " " ++ Matching.optional isDefault "default" ++ "" else "".

(** ** The tree *)

(** The number of characters of [s] equal to [c]. *)
Fixpoint count_char (c : ascii) (s : string) : nat :=
  match s with
  | EmptyString => 0
  | String a s' => (if Ascii.eqb a c then 1 else 0) + count_char c s'
  end.

(** [statSync] succeeds on the entry. *)
Definition can_stat (e : entry) : Prop := exists b, statSync_isDirectory e = Ok b.

(** An entry that the listing of its directory keeps: it can be examined,
    its name does not start with a dot, and it is a directory whose
    relative path is not excluded or a file whose name is not excluded. *)
Definition survives (config : Config) (dirPath relativePath : string) (e : entry) : bool :=
  match statSync_isDirectory e with
  | Ok true =>
      negb (isHidden (entry_name e))
      && negb (shouldExcludePath config (Path.join relativePath (entry_name e)))
  | Ok false =>
      negb (isHidden (entry_name e))
      && negb (shouldExcludeFile config (Path.join dirPath (entry_name e)))
  | Throw _ => false
  end.

(** A directory that cannot be listed beside a script, and a hidden link
    whose target is missing beside a script. *)
Definition with_closed_directory : entry :=
  Directory "proj" [ClosedDirectory "private" (SystemError "EACCES");
                    File "a.js" (Ok "let x")].

Definition with_hidden_dangling_link : entry :=
  Directory "proj" [File "a.js" (Ok "let x"); Dangling ".#a.js" (SystemError "ENOENT")].

(** * Properties *)

(** ** Strings *)

Lemma append_nil_r (s : string) : s ++ "" = s.
Proof. induction s; simpl; congruence. Qed.

Lemma append_assoc (a b c : string) : (a ++ b) ++ c = a ++ (b ++ c).
Proof. induction a; simpl; congruence. Qed.

Lemma append_length (a b : string) :
  String.length (a ++ b) = String.length a + String.length b.
Proof. induction a; simpl; congruence. Qed.

Lemma append_inv_head (a b c : string) : a ++ b = a ++ c -> b = c.
Proof. induction a; simpl; intros H; [assumption | injection H; auto]. Qed.

Lemma prefix_append_iff (a b : string) :
  String.prefix a b = true <-> exists r, b = a ++ r.
Proof.
  revert b; induction a as [|x a IH]; intros b.
  - destruct b; simpl; split; eauto.
  - destruct b as [|y b]; simpl.
    + split; [discriminate | intros [r H]; discriminate].
    + destruct (ascii_dec x y) as [->|Hne].
      * rewrite IH. split; intros [r H]; exists r; congruence.
      * split; [discriminate | intros [r H]; congruence].
Qed.

Lemma split_nonempty (c : ascii) (s : string) : split c s <> [].
Proof.
  destruct s as [|a s]; simpl; [discriminate|].
  destruct (Ascii.eqb a c); [discriminate|].
  destruct (split c s); discriminate.
Qed.

Lemma split_free (c : ascii) (s : string) : ~ occurs c s -> split c s = [s].
Proof.
  induction s as [|a s IH]; simpl; intros H; [reflexivity|].
  destruct (Ascii.eqb_spec a c) as [->|Hne]; [tauto|].
  rewrite IH by tauto. reflexivity.
Qed.

Lemma split_append (c : ascii) (a b : string) :
  split c (a ++ String c b) = (split c a ++ split c b)%list.
Proof.
  induction a as [|x a IH]; simpl.
  - rewrite Ascii.eqb_refl. reflexivity.
  - destruct (Ascii.eqb x c); rewrite IH; [reflexivity|].
    destruct (split c a) eqn:E; [now apply split_nonempty in E | reflexivity].
Qed.

Lemma split_cases (c : ascii) (s : string) :
  (~ occurs c s /\ split c s = [s]) \/
  (exists x q, ~ occurs c x /\ s = x ++ String c q /\ split c s = x :: split c q).
Proof.
  induction s as [|a s IH]; simpl.
  - left; tauto.
  - destruct (Ascii.eqb_spec a c) as [->|Hne].
    + right. exists "", s. simpl. tauto.
    + destruct IH as [[Hf E]|(x & q & Hf & -> & E)].
      * left. rewrite E. tauto.
      * right. exists (String a x), q. rewrite E. simpl. tauto.
Qed.

Lemma split_segment (seg path : string) :
  In seg (split Path.slash path) <-> is_segment seg path.
Proof.
  split.
  - remember (String.length path) as n eqn:Hn.
    revert path Hn seg.
    induction n as [n IH] using lt_wf_ind; intros path Hn seg Hin.
    destruct (split_cases Path.slash path) as [[Hf E]|(x & q & Hf & -> & E)].
    + rewrite E in Hin. destruct Hin as [<-|[]].
      split; [assumption|]. exists "", "". rewrite append_nil_r. simpl. tauto.
    + rewrite E in Hin. destruct Hin as [<-|Hin].
      * split; [assumption|]. exists "", (String Path.slash q). simpl.
        split; [reflexivity|]. split; [tauto|]. right. exists q. reflexivity.
      * assert (Hlt : String.length q < n).
        { subst n. rewrite append_length. simpl. lia. }
        destruct (IH _ Hlt q eq_refl seg Hin) as (Hs & pre & post & -> & Hpre & Hpost).
        split; [assumption|].
        exists (x ++ "/" ++ pre), post.
        split.
        { rewrite !append_assoc. reflexivity. }
        split; [|assumption].
        right. destruct Hpre as [->|(p & ->)].
        -- exists x. reflexivity.
        -- exists (x ++ "/" ++ p). rewrite !append_assoc. reflexivity.
  - intros (Hf & pre & post & -> & Hpre & Hpost).
    assert (Hmid : In seg (split Path.slash (seg ++ post))).
    { destruct Hpost as [->|(q & ->)].
      - rewrite append_nil_r, split_free by assumption. now left.
      - change ("/" ++ q) with (String Path.slash q).
        rewrite split_append, (split_free _ _ Hf). now left. }
    destruct Hpre as [->|(p & ->)]; [assumption|].
    rewrite append_assoc. change ("/" ++ seg ++ post) with (String Path.slash (seg ++ post)).
    rewrite split_append. apply in_or_app. now right.
Qed.

Lemma includes_In (xs : list string) (x : string) : includes xs x = true <-> In x xs.
Proof.
  unfold includes. rewrite existsb_exists. split.
  - intros (y & Hin & Heq). apply String.eqb_eq in Heq. now subst.
  - intros Hin. exists x. split; [assumption | apply String.eqb_refl].
Qed.

(** C1. The path-exclusion predicate is true exactly when some rule of the
    excluded-path set equals the path, or the path starts with the rule
    followed by a separator, or the rule is one of the separator-delimited
    segments of the path; the rule [lib] does not exclude [library]. *)
Theorem shouldExcludePath_iff (config : Config) (relativePath : string) :
  (shouldExcludePath config relativePath = true <->
   exists rule, In rule (excludePaths config) /\
     (relativePath = rule \/
      (exists rest, relativePath = rule ++ "/" ++ rest) \/
      is_segment rule relativePath))
  /\ shouldExcludePath (mkConfig ["lib"] [] []) "library" = false.
Proof.
  split; [|reflexivity].
  unfold shouldExcludePath. rewrite existsb_exists.
  split.
  - intros (rule & Hin & H). exists rule. split; [assumption|].
    destruct (String.eqb_spec relativePath rule) as [->|Hne]; [now left|].
    destruct (startsWith relativePath (rule ++ "/")) eqn:Hp.
    + right; left. unfold startsWith in Hp. apply prefix_append_iff in Hp.
      destruct Hp as [r ->]. exists r. now rewrite append_assoc.
    + right; right. apply split_segment, includes_In. assumption.
  - intros (rule & Hin & H). exists rule. split; [assumption|].
    destruct (String.eqb_spec relativePath rule) as [|Hne]; [reflexivity|].
    destruct (startsWith relativePath (rule ++ "/")) eqn:Hp; [reflexivity|].
    destruct H as [H|[(rest & H)|H]].
    + contradiction.
    + unfold startsWith in Hp.
      assert (String.prefix (rule ++ "/") relativePath = true) as Hp'.
      { apply prefix_append_iff. exists rest. now rewrite append_assoc. }
      congruence.
    + apply includes_In, split_segment. assumption.
Qed.

(** ** Configuration *)

(** C4, counterexample. A configuration file that lists [.ts] as its
    included extensions removes the built-in extension [.js] from the
    resolved set. *)
Lemma includeExtensions_replaces_defaults :
  In ".js" (includeExtensions DEFAULT_CONFIG)
  /\ includeExtensions (loadConfig (ParsedConfigFile only_ts_config)) = [".ts"]
  /\ ~ In ".js" (includeExtensions (loadConfig (ParsedConfigFile only_ts_config))).
Proof.
  split; [simpl; tauto|]. split; [reflexivity|].
  simpl. intros [H|[]]. discriminate.
Qed.

(** C4, amended. The excluded paths are the built-in ones followed by the
    [excludePaths] and then the [excludeDirs] of the file, and the excluded
    files are the built-in ones followed by the [excludeFiles] of the file:
    every built-in entry of these two sets stays.  The included extensions
    are those of the file when it lists them, and the built-in ones
    otherwise.  Without a file that can be read and parsed, the three sets
    are the built-in ones. *)
Theorem loadConfig_merges_exclusions (src : ConfigSource) :
  let resolved := loadConfig src in
  (forall p, In p (excludePaths DEFAULT_CONFIG) -> In p (excludePaths resolved)) /\
  (forall f, In f (excludeFiles DEFAULT_CONFIG) -> In f (excludeFiles resolved)) /\
  match src with
  | ParsedConfigFile config =>
      excludePaths resolved
        = (excludePaths DEFAULT_CONFIG ++ or_else (cf_excludePaths config) []
             ++ or_else (cf_excludeDirs config) [])%list /\
      excludeFiles resolved
        = (excludeFiles DEFAULT_CONFIG ++ or_else (cf_excludeFiles config) [])%list /\
      includeExtensions resolved
        = match cf_includeExtensions config with
          | Some extensions => extensions
          | None => includeExtensions DEFAULT_CONFIG
          end
  | _ => resolved = DEFAULT_CONFIG
  end.
Proof.
  intros resolved.
  split; [|split].
  - intros p H. destruct src; subst resolved; cbn [loadConfig excludePaths]; auto.
    apply in_or_app. now left.
  - intros f H. destruct src; subst resolved; cbn [loadConfig excludeFiles]; auto.
    apply in_or_app. now left.
  - destruct src as [|e|config]; subst resolved; [reflexivity | reflexivity |].
    cbn [loadConfig excludePaths excludeFiles includeExtensions].
    destruct (cf_includeExtensions config); auto.
Qed.

(** ** The walker *)

Lemma bind_assoc {A B C} (m : result A) (f : A -> result B) (g : B -> result C) :
  (y <- (x <- m ;; f x) ;; g y) = (x <- m ;; y <- f x ;; g y).
Proof. destruct m; reflexivity. Qed.

Lemma forEach_app {A} (f : A -> list string -> result (list string)) (xs ys : list A) s :
  forEach f (xs ++ ys) s = (s' <- forEach f xs s ;; forEach f ys s').
Proof.
  revert s; induction xs as [|x xs IH]; intros s; simpl; [reflexivity|].
  destruct (f x s); simpl; auto.
Qed.

Ltac case_walk :=
  match goal with
  | |- context [bind (walk ?v ?x ?s) _] => destruct (walk v x s); simpl
  end.

Ltac case_forEach :=
  match goal with
  | |- context [bind (forEach ?f ?xs ?s) _] => destruct (forEach f xs s); simpl
  end.

Lemma walk_eq (v : visitors) (n : node) (s : list string) :
  walk v n s = (s' <- forEach (walk v) (children n) s ;; visit v n s').
Proof.
  assert (L : forall ns s0,
    (fix walk_list (ns : list node) (signatures : list string) {struct ns}
      : result (list string) :=
      match ns with
      | [] => Ok signatures
      | x :: ns' => s <- walk v x signatures ;; walk_list ns' s
      end) ns s0 = forEach (walk v) ns s0).
  { induction ns as [|x ns IH]; intros s0; simpl; [reflexivity|].
    destruct (walk v x s0); simpl; auto. }
  destruct n; simpl;
    repeat match goal with
           | o : option node |- _ => destruct o
           | b : bool |- _ => destruct b
           end; simpl;
    repeat first [ rewrite L | rewrite forEach_app | case_walk ];
    repeat first [ case_forEach | case_walk ];
    reflexivity.
Qed.

Lemma walk_Identifier v name s : walk v (Identifier name) s = Ok s.
Proof. reflexivity. Qed.

(** C9. With [--all-methods], a directly exported function declaration,
    and a directly exported variable bound to an arrow function or to a
    function expression, is reported twice: the plain signature pushed by
    the visitor of the declaration itself, then the export-tagged one
    pushed by the visitor of the export. *)
Theorem exported_declaration_emitted_twice
    (name : string) (params : list node) (async : bool) (body : node)
    (signatures : list string) :
  name <> "" ->
  let v := signatureVisitors true in
  let plain := mkSignature name (map renderParam params) async NotExported in
  let exported := mkSignature name (map renderParam params) async NamedExport in
  walk v (ExportNamedDeclaration
            (Some (FunctionDeclaration (Some (Identifier name)) params async body)))
       signatures
  = (s <- forEach (walk v) (params ++ [body]) signatures ;;
     Ok (s ++ [render_signature plain; render_signature exported])%list)
  /\
  walk v (ExportNamedDeclaration
            (Some (VariableDeclaration
                     [VariableDeclarator (Identifier name)
                        (Some (ArrowFunctionExpression params async body))])))
       signatures
  = (s <- forEach (walk v) (params ++ [body]) signatures ;;
     Ok (s ++ [render_signature plain; render_signature exported])%list)
  /\
  forall id,
  walk v (ExportNamedDeclaration
            (Some (VariableDeclaration
                     [VariableDeclarator (Identifier name)
                        (Some (FunctionExpression id params async body))])))
       signatures
  = (s <- forEach (walk v) (opt_list id ++ params ++ [body]) signatures ;;
     Ok (s ++ [render_signature plain; render_signature exported])%list).
Proof.
  intros Hname v plain exported.
  assert (E : forall p b,
    forEach (walk v) (Identifier name :: p ++ [b]) signatures
    = forEach (walk v) (p ++ [b]) signatures) by reflexivity.
  split; [|split]; intros.
  - rewrite walk_eq. cbn [children opt_list forEach].
    rewrite walk_eq. cbn [children opt_list app]. rewrite E, !bind_assoc.
    destruct (forEach (walk v) (params ++ [body]) signatures) as [s|e]; [|reflexivity].
    destruct name as [|c name']; [congruence|]. cbn. unfold push.
    rewrite <- app_assoc. reflexivity.
  - rewrite walk_eq. cbn [children opt_list forEach].
    rewrite walk_eq. cbn [children opt_list forEach].
    rewrite walk_eq. cbn [children opt_list forEach].
    rewrite walk_Identifier. cbn [bind].
    rewrite walk_eq. cbn [children].
    rewrite !bind_assoc.
    destruct (forEach (walk v) (params ++ [body]) signatures) as [s|e]; [|reflexivity].
    destruct name as [|c name']; [congruence|]. cbn. unfold push.
    rewrite <- app_assoc. reflexivity.
  - rewrite walk_eq. cbn [children opt_list forEach].
    rewrite walk_eq. cbn [children opt_list forEach].
    rewrite walk_eq. cbn [children opt_list forEach].
    rewrite walk_Identifier. cbn [bind].
    rewrite walk_eq. cbn [children].
    rewrite !bind_assoc.
    destruct (forEach (walk v) (opt_list id ++ params ++ [body]) signatures) as [s|e];
      [|reflexivity].
    destruct name as [|c name']; [congruence|]. cbn. unfold push.
    rewrite <- app_assoc. reflexivity.
Qed.

(** C9 at [export function add(a, b) {}]. *)
Lemma exported_declaration_emitted_twice_witness :
  "add" <> ""
  /\ walk (signatureVisitors true)
       (ExportNamedDeclaration
          (Some (FunctionDeclaration (Some (Identifier "add"))
                   [Identifier "a"; Identifier "b"] false emptyBlock))) []
     = Ok ["add(a, b)"; "export add(a, b)"].
Proof.
  assert (H : "add" <> "") by discriminate.
  split; [exact H|].
  rewrite (proj1 (exported_declaration_emitted_twice "add"
                    [Identifier "a"; Identifier "b"] false emptyBlock [] H)).
  reflexivity.
Defined.

(** ** Signature extraction *)

(** C3. Signature extraction never throws, in either revision of the
    script: whatever the file system, the parser and the pattern compiler
    do, the call returns a list of signatures; the empty list when the
    file cannot be read, the signatures of the walk when parsing and
    walking succeed, and otherwise the result of the textual fallback, or
    the empty list when the fallback itself throws. *)
Theorem extractMethodSignatures_never_throws
    (readFileSync : string -> result string) (parse : string -> result node)
    (compileFuncDef : string -> result (string -> option Regex.rmatch))
    (filePath : string) (includeAllMethods : bool) :
  (exists signatures,
     extractMethodSignatures readFileSync parse compileFuncDef filePath includeAllMethods
       = Ok signatures /\
     signatures =
       match readFileSync filePath with
       | Throw _ => []
       | Ok fileContent =>
           match (ast <- parse fileContent ;;
                  walk (signatureVisitors includeAllMethods) ast []) with
           | Ok found => found
           | Throw _ =>
               match extractMethodsFromRawContent compileFuncDef fileContent
                       includeAllMethods with
               | Ok found => found
               | Throw _ => []
               end
           end
       end)
  /\
  (exists signatures,
     Legacy.extractMethodSignatures readFileSync parse filePath = Ok signatures /\
     signatures =
       match readFileSync filePath with
       | Throw _ => []
       | Ok fileContent =>
           match (ast <- parse fileContent ;; walk Legacy.signatureVisitors ast []) with
           | Ok found => found
           | Throw _ => Legacy.extractMethodsFromRawContent fileContent
           end
       end).
Proof.
  unfold extractMethodSignatures, Legacy.extractMethodSignatures, try_catch.
  destruct (readFileSync filePath) as [fileContent|e]; cbn [bind].
  - split.
    + destruct (ast <- parse fileContent ;; walk _ ast []) as [found|e1].
      * eauto.
      * destruct (extractMethodsFromRawContent _ _ _) as [found|e2]; eauto.
    + destruct (ast <- parse fileContent ;; walk _ ast []) as [found|e1]; eauto.
  - split; eauto.
Qed.

(** The fallback can throw, so the outer handler is needed: an export list
    with a name that is not a valid pattern. *)
Example fallback_throws_on_bad_name :
  extractMethodsFromRawContent (fun _ => Throw SyntaxError) "export { * }" false
  = Throw SyntaxError.
Proof. reflexivity. Qed.

(** C5, counterexample. The default export of an arrow function is
    reported under the name [function], not under the name [default]. *)
Lemma default_export_arrow_is_named_function :
  extractMethodSignatures (fun _ => Ok "export default () => {}")
    (fun _ => Ok default_arrow_module) rejectAll "index.js" false
  = Ok ["export default function()"]
  /\ "export default function()"
     <> render_signature (mkSignature "default" [] false DefaultExport).
Proof. split; [reflexivity | discriminate]. Qed.

(** C5, amended. In either mode the visitor of a default export pushes
    exactly one signature, tagged as default export, after the signatures
    of the declaration below it; its async marker is the one of the
    declaration.  For a function declaration the name is the declared
    name, or [default] when there is none; for an arrow function or a
    function expression the word [function] stands where the name would
    be.  The module [export default async function () {}] gives the one
    signature named [default], async, default export, no parameter. *)
Theorem default_export_signature (includeAllMethods : bool) :
  let v := signatureVisitors includeAllMethods in
  (forall params async body signatures,
     let decl := FunctionDeclaration None params async body in
     walk v (ExportDefaultDeclaration decl) signatures
     = (s <- walk v decl signatures ;;
        Ok (s ++ [render_signature
                    (mkSignature "default" (map renderParam params) async DefaultExport)])%list))
  /\
  (forall name params async body signatures,
     let decl := FunctionDeclaration (Some (Identifier name)) params async body in
     walk v (ExportDefaultDeclaration decl) signatures
     = (s <- walk v decl signatures ;;
        Ok (s ++ [render_signature
                    (mkSignature name (map renderParam params) async DefaultExport)])%list))
  /\
  (forall params async body signatures,
     let decl := ArrowFunctionExpression params async body in
     walk v (ExportDefaultDeclaration decl) signatures
     = (s <- walk v decl signatures ;;
        Ok (s ++ [render_signature
                    (mkSignature "function" (map renderParam params) async DefaultExport)])%list))
  /\
  (forall id params async body signatures,
     let decl := FunctionExpression id params async body in
     walk v (ExportDefaultDeclaration decl) signatures
     = (s <- walk v decl signatures ;;
        Ok (s ++ [render_signature
                    (mkSignature "function" (map renderParam params) async DefaultExport)])%list))
  /\
  extractMethodSignatures (fun _ => Ok "export default async function () {}")
    (fun _ => Ok default_async_function_module) rejectAll "index.js" includeAllMethods
  = Ok [render_signature (mkSignature "default" [] true DefaultExport)].
Proof.
  intros v.
  split; [|split; [|split; [|split]]]; intros; try subst decl.
  1-4: rewrite walk_eq; cbn [children forEach]; rewrite bind_assoc;
       match goal with |- context [walk ?w ?d ?s] => destruct (walk w d s) end;
       reflexivity.
  destruct includeAllMethods; reflexivity.
Qed.

(** ** The two strategies *)

Lemma append_inv_tail (a b c : string) : a ++ c = b ++ c -> a = b.
Proof.
  revert b; induction a as [|x a IH]; intros [|y b] H; simpl in H.
  - reflexivity.
  - apply (f_equal String.length) in H. simpl in H. rewrite append_length in H. lia.
  - apply (f_equal String.length) in H. simpl in H. rewrite append_length in H. lia.
  - injection H as -> H. f_equal. auto.
Qed.

(** C2, counterexample. On the declaration [export function f(a = 1) {}]
    the fallback copies the default value where the structural strategy
    prints three dots; on [export default async function g() {}] with
    [--all-methods] the fallback prints neither the async marker nor the
    default tag that the structural strategy prints. *)
Lemma fallback_differs_from_structural :
  (extractMethodsFromRawContent rejectAll "export function f(a = 1) {}" false
     = Ok ["export f(a = 1)"]
   /\ walk (signatureVisitors false) exported_f_module []
     = Ok ["export f(a = ...)"])
  /\
  (extractMethodsFromRawContent rejectAll "export default async function g() {}" true
     = Ok ["export g()"]
   /\ walk (signatureVisitors true) default_async_g_module []
     = Ok ["async g()"; "export default async g()"]).
Proof. repeat split. Qed.

(** ** Matching *)

Module RegexFacts.
Import Regex Matching.

Lemma consumed_append (a b : string) : consumed (a ++ b) b = a.
Proof.
  unfold consumed. rewrite append_length, Nat.add_sub.
  induction a as [|x a IH]; simpl.
  - destruct b; reflexivity.
  - now rewrite IH.
Qed.

Lemma accepts_weaken r w (ok ok' : string -> Prop) c c' :
  accepts r w ok c c' -> (forall t, ok' t -> ok t) -> accepts r w ok' c c'.
Proof. intros H Himp t k x Ht. apply H, Himp, Ht. Qed.

Lemma accepts_Eps ok c : accepts Eps "" ok c c.
Proof. intros t k x _ H. exact H. Qed.

Lemma accepts_lit s ok c : accepts (lit s) s ok c c.
Proof.
  induction s as [|a s IH]; intros t k x Ht H; simpl.
  - exact H.
  - rewrite Ascii.eqb_refl. now apply IH.
Qed.

Lemma accepts_Seq r1 r2 w1 w2 (ok1 ok2 : string -> Prop) c c1 c2 :
  accepts r1 w1 ok1 c c1 -> accepts r2 w2 ok2 c1 c2 ->
  (forall t, ok2 t -> ok1 (w2 ++ t)) ->
  accepts (Seq r1 r2) (w1 ++ w2) ok2 c c2.
Proof.
  intros H1 H2 Hok t k x Ht H. simpl. rewrite append_assoc.
  apply H1; [now apply Hok|]. now apply H2.
Qed.

Lemma accepts_Star p w c :
  all_in p w = true -> accepts (Star p) w (stops p) c c.
Proof.
  unfold all_in. induction w as [|a w IH]; intros Hall t k x Ht H; simpl in *.
  - destruct t as [|b t]; simpl in *; [exact H|]. now rewrite Ht.
  - apply andb_prop in Hall. destruct Hall as [-> Hall].
    fold (star p (w ++ t) c k).
    assert (E : star p (w ++ t) c k = Some x) by (apply (IH Hall t k x Ht H)).
    now rewrite E.
Qed.

Lemma accepts_Plus p w c :
  w <> "" -> all_in p w = true -> accepts (Plus p) w (stops p) c c.
Proof.
  unfold all_in. destruct w as [|a w]; [congruence|]. intros _ Hall t k x Ht H.
  simpl in Hall. apply andb_prop in Hall. destruct Hall as [Ha Hall].
  unfold Plus. simpl. rewrite Ha.
  apply (accepts_Star p w c Hall t k x Ht H).
Qed.

Lemma accepts_Opt_take r w ok c c' : accepts r w ok c c' -> accepts (Opt r) w ok c c'.
Proof. intros H t k x Ht Hk. simpl. now rewrite (H t k x Ht Hk). Qed.

Lemma accepts_Opt_skip r (ok : string -> Prop) c : rejects r ok -> accepts (Opt r) "" ok c c.
Proof. intros H t k x Ht Hk. simpl. now rewrite (H t c k Ht). Qed.

Lemma accepts_Alt_left r1 r2 w ok c c' : accepts r1 w ok c c' -> accepts (Alt r1 r2) w ok c c'.
Proof. intros H t k x Ht Hk. simpl. now rewrite (H t k x Ht Hk). Qed.

Lemma accepts_Group i r w ok c c' :
  accepts r w ok c c' -> accepts (Group i r) w ok c ((i, w) :: c').
Proof.
  intros H t k x Ht Hk. simpl. apply H; [assumption|].
  now rewrite consumed_append.
Qed.

Lemma accepts_match_here r w c' rest (ok : string -> Prop) :
  accepts r w ok [] c' -> ok rest ->
  match_here r (w ++ rest) = Some (mkMatch w c').
Proof.
  intros H Hok. unfold match_here.
  rewrite (H rest (fun s' c1 => Some (s', c1)) (rest, c') Hok eq_refl).
  now rewrite consumed_append.
Qed.

End RegexFacts.

Module MatchShapes.
Import Regex Patterns Matching RegexFacts.

Lemma isWord_not_isSpace (a : ascii) : isWord a = true -> isSpace a = false.
Proof.
  destruct a as [[] [] [] [] [] [] [] []]; intros H;
    first [ reflexivity | discriminate H ].
Qed.

Lemma stops_wordy (name t : string) :
  name <> "" -> all_in isWord name = true -> stops isSpace (name ++ t).
Proof.
  destruct name as [|a name]; [congruence|]. intros _ H.
  unfold all_in in H. simpl in H. apply andb_prop in H.
  simpl. apply isWord_not_isSpace. tauto.
Qed.

(** The name and the parenthesised text that end the function patterns. *)
Lemma accepts_name_and_args (name raw : string) (i j : nat) (c : captures) :
  name <> "" -> all_in isWord name = true -> all_in (isNot ")"%char) raw = true ->
  accepts (seq [Group i word1; sp0; lit "("; Group j args; lit ")"])
    (name ++ "" ++ "(" ++ raw ++ ")" ++ "")
    (fun _ => True) c ((j, raw) :: (i, name) :: c).
Proof.
  intros Hne Hw Hr. unfold seq, fold_right.
  eapply accepts_Seq;
    [ apply accepts_Group, accepts_Plus; assumption | | intros t _; exact eq_refl ].
  eapply accepts_Seq;
    [ apply accepts_Star; reflexivity | | intros t _; exact eq_refl ].
  eapply accepts_Seq;
    [ apply (accepts_lit "(" (fun _ => True)) | | intros t _; exact I ].
  eapply accepts_Seq;
    [ apply accepts_Group, accepts_Star; assumption | | intros t _; exact eq_refl ].
  eapply accepts_Seq;
    [ apply (accepts_lit ")" (fun _ => True)) | apply accepts_Eps | intros t _; exact I ].
Qed.

Lemma rejects_lit (a : ascii) (s : string) (r : regex) :
  rejects (Seq (lit (String a s)) r) (stops (Ascii.eqb a)).
Proof.
  intros t c k Ht. simpl. destruct t as [|b t]; [reflexivity|].
  simpl in Ht. now rewrite Ht.
Qed.

(** A keyword followed by one space, as [(?:keyword\s+)] reads it. *)
Lemma accepts_keyword (kw : string) (c : captures) :
  accepts (seq [lit kw; sp1]) (kw ++ " " ++ "") (stops isSpace) c c.
Proof.
  unfold seq, fold_right.
  eapply accepts_Seq;
    [ apply (accepts_lit kw (fun _ => True)) | | intros t _; exact I ].
  eapply accepts_Seq;
    [ apply accepts_Plus; [discriminate | reflexivity]
    | apply accepts_Eps
    | intros t Ht; exact Ht ].
Qed.

Lemma accepts_optional (present : bool) (a : ascii) (kw : string) (c : captures)
    (ok : string -> Prop) :
  (forall t, ok t -> stops isSpace t) ->
  (forall t, ok t -> stops (Ascii.eqb a) t) ->
  accepts (Opt (seq [lit (String a kw); sp1])) (optional present (String a kw)) ok c c.
Proof.
  intros Hs Ha. destruct present; unfold optional.
  - apply accepts_Opt_take. eapply accepts_weaken; [apply accepts_keyword | exact Hs].
  - apply accepts_Opt_skip. intros t c0 k Ht. apply rejects_lit, Ha, Ht.
Qed.

Ltac next_char :=
  intros ? _;
  first [ exact I | exact eq_refl
        | rewrite ?append_assoc; apply stops_wordy; assumption ].

(** The expression for exported functions on the head of an exported
    function declaration. *)
Lemma accepts_exportedFunction (isDefault isAsync : bool) (name raw : string) :
  name <> "" -> all_in isWord name = true -> all_in (isNot ")"%char) raw = true ->
  accepts exportedFunctionRegex
    ("export" ++ " " ++ optional isDefault "default" ++ optional isAsync "async"
       ++ "function" ++ " " ++ name ++ "" ++ "(" ++ raw ++ ")" ++ "")
    (fun _ => True) [] [(2, raw); (1, name)].
Proof.
  intros Hne Hw Hr. unfold exportedFunctionRegex, seq, fold_right.
  eapply accepts_Seq; [ apply (accepts_lit "export" (fun _ => True)) | | next_char ].
  eapply accepts_Seq;
    [ apply accepts_Plus; [discriminate | reflexivity] |
    | intros t _; destruct isDefault, isAsync; exact eq_refl ].
  eapply accepts_Seq;
    [ apply (accepts_optional isDefault "d" "efault" _
               (fun t => stops isSpace t /\ stops (Ascii.eqb "d") t)); tauto |
    | intros t _; destruct isAsync; split; exact eq_refl ].
  eapply accepts_Seq;
    [ apply (accepts_optional isAsync "a" "sync" _
               (fun t => stops isSpace t /\ stops (Ascii.eqb "a") t)); tauto |
    | intros t _; split; exact eq_refl ].
  eapply accepts_Seq; [ apply (accepts_lit "function" (fun _ => True)) | | next_char ].
  eapply accepts_Seq;
    [ apply accepts_Plus; [discriminate | reflexivity] | | next_char ].
  apply (accepts_name_and_args name raw 1 2 []); assumption.
Qed.

Lemma rejects_Group (i : nat) (r : regex) (ok : string -> Prop) :
  rejects r ok -> rejects (Group i r) ok.
Proof. intros H t c k Ht. simpl. now apply H. Qed.

Lemma accepts_Alt_right r1 r2 w (ok : string -> Prop) c c' :
  (forall t c0 k, run r1 (w ++ t) c0 k = None) ->
  accepts r2 w ok c c' -> accepts (Alt r1 r2) w ok c c'.
Proof. intros H1 H2 t k x Ht Hk. simpl. rewrite H1. now apply H2. Qed.

Lemma accepts_declKeyword (kw : string) (ok : string -> Prop) (c : captures) :
  isDeclKeyword kw = true -> accepts declKeyword kw ok c c.
Proof.
  unfold isDeclKeyword, declKeyword. intros H.
  apply orb_prop in H. destruct H as [H|H]; [apply orb_prop in H; destruct H as [H|H]|];
    apply String.eqb_eq in H; subst kw.
  - apply accepts_Alt_left, accepts_lit.
  - apply accepts_Alt_right; [reflexivity|].
    apply accepts_Alt_left, accepts_lit.
  - apply accepts_Alt_right; [reflexivity|].
    apply accepts_Alt_right; [reflexivity|]. apply accepts_lit.
Qed.

Lemma isDeclKeyword_head (kw t : string) :
  isDeclKeyword kw = true ->
  stops isSpace (kw ++ t) /\ stops (Ascii.eqb "d") (kw ++ t).
Proof.
  unfold isDeclKeyword. intros H.
  apply orb_prop in H. destruct H as [H|H]; [apply orb_prop in H; destruct H as [H|H]|];
    apply String.eqb_eq in H; subst kw; split; exact eq_refl.
Qed.

Lemma accepts_async_group (isAsync : bool) (c : captures) :
  accepts (Opt (Group 2 (seq [lit "async"; sp1]))) (optional isAsync "async")
    (fun t => stops isSpace t /\ stops (Ascii.eqb "a") t) c
    (asyncCapture isAsync ++ c)%list.
Proof.
  destruct isAsync; unfold optional, asyncCapture.
  - apply accepts_Opt_take.
    apply (accepts_Group 2 _ ("async" ++ " " ++ "")).
    eapply accepts_weaken; [apply accepts_keyword | tauto].
  - apply accepts_Opt_skip, rejects_Group.
    intros t c0 k Ht. apply rejects_lit, Ht.
Qed.

(** The expression for exported arrow functions on the head of an exported
    variable bound to an arrow function. *)
Lemma accepts_exportedArrow (kw : string) (isAsync : bool) (name raw : string) :
  isDeclKeyword kw = true ->
  name <> "" -> all_in isWord name = true -> all_in (isNot ")"%char) raw = true ->
  accepts exportedArrowRegex
    ("export" ++ " " ++ "" ++ kw ++ " " ++ name ++ " " ++ "=" ++ " "
       ++ optional isAsync "async" ++ "(" ++ raw ++ ")" ++ " " ++ "=>" ++ "")
    (fun _ => True) []
    ((3, raw) :: asyncCapture isAsync ++ [(1, name)])%list.
Proof.
  intros Hkw Hne Hw Hr. unfold exportedArrowRegex, seq, fold_right.
  eapply accepts_Seq; [ apply (accepts_lit "export" (fun _ => True)) | | next_char ].
  eapply accepts_Seq;
    [ apply accepts_Plus; [discriminate | reflexivity] |
    | intros t _; cbn [append]; rewrite append_assoc;
      apply (isDeclKeyword_head kw _ Hkw) ].
  eapply accepts_Seq;
    [ apply (accepts_Opt_skip _ (stops (Ascii.eqb "d"))), rejects_lit |
    | intros t _; rewrite append_assoc; apply (isDeclKeyword_head kw _ Hkw) ].
  eapply accepts_Seq; [ apply (accepts_declKeyword kw (fun _ => True)), Hkw | | next_char ].
  eapply accepts_Seq;
    [ apply accepts_Plus; [discriminate | reflexivity] | | next_char ].
  eapply accepts_Seq;
    [ apply accepts_Group, accepts_Plus; assumption | | intros t _; exact eq_refl ].
  eapply accepts_Seq;
    [ apply (accepts_Star isSpace " "); reflexivity | | intros t _; exact eq_refl ].
  eapply accepts_Seq; [ apply (accepts_lit "=" (fun _ => True)) | | next_char ].
  eapply accepts_Seq;
    [ apply (accepts_Star isSpace " "); reflexivity |
    | intros t _; destruct isAsync; exact eq_refl ].
  eapply accepts_Seq;
    [ apply accepts_async_group | | intros t _; split; exact eq_refl ].
  eapply accepts_Seq; [ apply (accepts_lit "(" (fun _ => True)) | | next_char ].
  eapply accepts_Seq;
    [ apply accepts_Group, accepts_Star; assumption | | intros t _; exact eq_refl ].
  eapply accepts_Seq; [ apply (accepts_lit ")" (fun _ => True)) | | next_char ].
  eapply accepts_Seq;
    [ apply (accepts_Star isSpace " "); reflexivity | | intros t _; exact eq_refl ].
  eapply accepts_Seq;
    [ apply (accepts_lit "=>" (fun _ => True)) | apply accepts_Eps | next_char ].
Qed.

End MatchShapes.

Lemma exec_all_head (r : Regex.regex) (s : string) (m : Regex.rmatch) :
  Regex.match_here r s = Some m -> exists more, Regex.exec_all r s = m :: more.
Proof.
  intros H. unfold Regex.exec_all. destruct s; simpl; rewrite H; eauto.
Qed.

Lemma functionHead_pieces (isDefault isAsync : bool) (name raw : string) :
  functionHead isDefault isAsync name raw
  = "export" ++ " " ++ Matching.optional isDefault "default"
      ++ Matching.optional isAsync "async"
      ++ "function" ++ " " ++ name ++ "" ++ "(" ++ raw ++ ")" ++ "".
Proof. destruct isDefault, isAsync; reflexivity. Qed.

Lemma arrowHead_pieces (kw : string) (isAsync : bool) (name raw : string) :
  arrowHead kw isAsync name raw
  = "export" ++ " " ++ "" ++ kw ++ " " ++ name ++ " " ++ "=" ++ " "
      ++ Matching.optional isAsync "async" ++ "(" ++ raw ++ ")" ++ " " ++ "=>" ++ "".
Proof.
  unfold arrowHead. destruct isAsync; cbn; rewrite ?append_assoc; reflexivity.
Qed.

Lemma isIdentifierName_spec (name : string) :
  isIdentifierName name = true ->
  name <> "" /\ Matching.all_in Regex.isWord name = true.
Proof.
  unfold isIdentifierName. intros H. apply andb_prop in H. destruct H as [H1 H2].
  split; [|assumption]. intros ->. discriminate H1.
Qed.

(** The first match of the expression for exported functions in a text
    that starts with the head of an exported function declaration. *)
Lemma exportedFunction_first_match (isDefault isAsync : bool) (name raw rest : string) :
  isIdentifierName name = true -> isParameterText raw = true ->
  exists more,
    Regex.exec_all Patterns.exportedFunctionRegex
      (functionHead isDefault isAsync name raw ++ rest)
    = Regex.mkMatch (functionHead isDefault isAsync name raw) [(2, raw); (1, name)]
        :: more.
Proof.
  intros Hn Hr. apply isIdentifierName_spec in Hn. destruct Hn as [Hne Hw].
  apply exec_all_head. rewrite functionHead_pieces.
  apply (RegexFacts.accepts_match_here _ _ _ _ (fun _ => True)); [|exact I].
  now apply MatchShapes.accepts_exportedFunction.
Qed.

Lemma exportedArrow_first_match (kw : string) (isAsync : bool) (name raw rest : string) :
  Matching.isDeclKeyword kw = true ->
  isIdentifierName name = true -> isParameterText raw = true ->
  exists more,
    Regex.exec_all Patterns.exportedArrowRegex (arrowHead kw isAsync name raw ++ rest)
    = Regex.mkMatch (arrowHead kw isAsync name raw)
        ((3, raw) :: Matching.asyncCapture isAsync ++ [(1, name)])%list
        :: more.
Proof.
  intros Hkw Hn Hr. apply isIdentifierName_spec in Hn. destruct Hn as [Hne Hw].
  apply exec_all_head. rewrite arrowHead_pieces.
  apply (RegexFacts.accepts_match_here _ _ _ _ (fun _ => True)); [|exact I].
  now apply MatchShapes.accepts_exportedArrow.
Qed.

Lemma forEach_extends {A} (f : A -> list string -> result (list string)) (xs : list A) :
  (forall x s s', f x s = Ok s' -> exists ext, s' = (s ++ ext)%list) ->
  forall s s', forEach f xs s = Ok s' -> exists ext, s' = (s ++ ext)%list.
Proof.
  intros Hf. induction xs as [|x xs IH]; simpl; intros s s' H.
  - injection H as <-. exists []. now rewrite app_nil_r.
  - destruct (f x s) as [s1|e] eqn:E; [|discriminate]. simpl in H.
    destruct (Hf _ _ _ E) as [ext1 ->].
    destruct (IH _ _ H) as [ext2 ->].
    exists (ext1 ++ ext2)%list. now rewrite app_assoc.
Qed.

Lemma signature_exportedName_extends compileFuncDef (fileContent name : string)
    (s s' : list string) :
  signature_exportedName compileFuncDef fileContent name s = Ok s' ->
  exists ext, s' = (s ++ ext)%list.
Proof.
  unfold signature_exportedName. destruct (newFuncDefRegExp _ name) as [re|e]; [|discriminate].
  cbn [bind]. destruct (re fileContent); intros H; injection H as <-.
  - unfold push. eauto.
  - exists []. now rewrite app_nil_r.
Qed.

(** Without [--all-methods] the fallback returns the signatures of the
    exported functions, then those of the exported arrow functions, then
    whatever the export lists add. *)
Lemma fallback_exported_result compileFuncDef (fileContent : string) (result : list string) :
  extractMethodsFromRawContent compileFuncDef fileContent false = Ok result ->
  exists listed,
    result
    = (map signature_exportedFunction
         (Regex.exec_all Patterns.exportedFunctionRegex fileContent)
       ++ map signature_exportedArrow
            (Regex.exec_all Patterns.exportedArrowRegex fileContent)
       ++ listed)%list.
Proof.
  unfold extractMethodsFromRawContent. cbn [app]. intros H.
  apply forEach_extends in H.
  - destruct H as [ext ->]. exists ext. now rewrite <- app_assoc.
  - intros m s s' Hm. apply forEach_extends in Hm; [assumption|].
    intros name s0 s1. apply signature_exportedName_extends.
Qed.

(** C2, amended. Without [--all-methods], on a text that starts with the
    head of an exported function declaration the first match of the
    fallback gives its first signature, with the export tag and the async
    marker the structural strategy prints for that declaration, when the
    head contains the words [default] and [async] exactly if the
    declaration has them; on the head of an exported variable bound to an
    arrow function the fallback reports a signature with the same tag and
    marker as the structural one.  The parameters differ: the fallback
    prints the text found between the parentheses, so the two signatures
    are equal exactly when that text is already the structural rendering
    of the parameters. *)
Theorem fallback_agrees_up_to_parameters
    (compileFuncDef : string -> result (string -> option Regex.rmatch))
    (name raw rest : string) (params : list node) (async isDefault : bool)
    (body : node) (signatures : list string) :
  isIdentifierName name = true ->
  isParameterText raw = true ->
  (let head := functionHead isDefault async name raw in
   let decl := FunctionDeclaration (Some (Identifier name)) params async body in
   let structural :=
     if isDefault
     then visit_ExportDefaultDeclaration (ExportDefaultDeclaration decl) signatures
     else visit_ExportNamedDeclaration (ExportNamedDeclaration (Some decl)) signatures in
   str_includes head "default" = isDefault ->
   str_includes head "async" = async ->
   exists m more,
     Regex.exec_all Patterns.exportedFunctionRegex (head ++ rest) = m :: more /\
     (forall result,
        extractMethodsFromRawContent compileFuncDef (head ++ rest) false = Ok result ->
        exists others, result = signature_exportedFunction m :: others) /\
     (structural = Ok (push signatures (signature_exportedFunction m))
      <-> raw = extractParams params))
  /\
  (forall kw,
   let head := arrowHead kw async name raw in
   let decl := VariableDeclaration
                 [VariableDeclarator (Identifier name)
                    (Some (ArrowFunctionExpression params async body))] in
   let structural :=
     visit_ExportNamedDeclaration (ExportNamedDeclaration (Some decl)) signatures in
   Matching.isDeclKeyword kw = true ->
   str_includes head "default" = false ->
   exists m more,
     Regex.exec_all Patterns.exportedArrowRegex (head ++ rest) = m :: more /\
     (forall result,
        extractMethodsFromRawContent compileFuncDef (head ++ rest) false = Ok result ->
        In (signature_exportedArrow m) result) /\
     (structural = Ok (push signatures (signature_exportedArrow m))
      <-> raw = extractParams params)).
Proof.
  intros Hn Hr.
  assert (Inj : forall pre x y,
             Ok (push signatures (pre ++ name ++ "(" ++ x ++ ")"))
             = Ok (push signatures (pre ++ name ++ "(" ++ y ++ ")")) <-> y = x).
  { intros pre x y. split; [|intros ->; reflexivity].
    intros H. injection H as H. unfold push in H. apply app_inv_head in H.
    injection H as H.
    apply append_inv_head, append_inv_head in H. simpl in H. injection H as H.
    apply append_inv_tail in H. congruence. }
  split.
  - intros head decl structural Hd Ha.
    destruct (exportedFunction_first_match isDefault async name raw rest Hn Hr)
      as [more Hm]. fold head in Hm.
    exists (Regex.mkMatch head [(2, raw); (1, name)]), more.
    split; [exact Hm|]. split.
    + intros result H. apply fallback_exported_result in H.
      destruct H as [listed ->]. rewrite Hm. cbn [map app]. eauto.
    + subst structural. unfold signature_exportedFunction. cbn [Regex.fullMatch].
      rewrite Hd, Ha. unfold Regex.group. cbn [Regex.groups Regex.capture Nat.eqb tmpl].
      destruct isDefault, async; cbn [visit_ExportDefaultDeclaration
        visit_ExportNamedDeclaration decl bind name_of tmpl asyncPrefix];
        first [ apply (Inj "export default async ")
              | apply (Inj "export default ")
              | apply (Inj "export async ")
              | apply (Inj "export ") ].
  - intros kw head decl structural Hkw Hd.
    destruct (exportedArrow_first_match kw async name raw rest Hkw Hn Hr)
      as [more Hm]. fold head in Hm.
    exists (Regex.mkMatch head
              ((3, raw) :: Matching.asyncCapture async ++ [(1, name)])%list), more.
    split; [exact Hm|]. split.
    + intros result H. apply fallback_exported_result in H.
      destruct H as [listed ->]. rewrite Hm. cbn [map].
      apply in_or_app. right. apply in_or_app. left. now left.
    + subst structural decl. unfold signature_exportedArrow. cbn [Regex.fullMatch].
      rewrite Hd.
      destruct async; cbn;
        first [ apply (Inj "export async ") | apply (Inj "export ") ].
Qed.

(** C2 at [export function f(a, b) { return a + b; }], whose parameter
    text is already the structural rendering. *)
Lemma fallback_agrees_up_to_parameters_witness :
  isIdentifierName "f" = true
  /\ isParameterText "a, b" = true
  /\ str_includes (functionHead false false "f" "a, b") "default" = false
  /\ str_includes (functionHead false false "f" "a, b") "async" = false
  /\ exists m more,
       Regex.exec_all Patterns.exportedFunctionRegex
         (functionHead false false "f" "a, b" ++ " { return a + b; }") = m :: more /\
       (forall result,
          extractMethodsFromRawContent rejectAll
            (functionHead false false "f" "a, b" ++ " { return a + b; }") false
          = Ok result ->
          exists others, result = signature_exportedFunction m :: others) /\
       (visit_ExportNamedDeclaration
          (ExportNamedDeclaration
             (Some (FunctionDeclaration (Some (Identifier "f"))
                      [Identifier "a"; Identifier "b"] false emptyBlock))) []
        = Ok (push [] (signature_exportedFunction m))
        <-> "a, b" = extractParams [Identifier "a"; Identifier "b"]).
Proof.
  split; [reflexivity|]. split; [reflexivity|].
  split; [reflexivity|]. split; [reflexivity|].
  exact (proj1 (fallback_agrees_up_to_parameters rejectAll "f" "a, b"
                  " { return a + b; }" [Identifier "a"; Identifier "b"]
                  false false emptyBlock [] eq_refl eq_refl) eq_refl eq_refl).
Defined.

(** On that text both strategies report the same signature. *)
Example fallback_on_plain_parameters :
  extractMethodsFromRawContent rejectAll "export function f(a, b) { return a + b; }" false
  = Ok ["export f(a, b)"]
  /\ walk (signatureVisitors false)
       (Program [ExportNamedDeclaration
                   (Some (FunctionDeclaration (Some (Identifier "f"))
                            [Identifier "a"; Identifier "b"] false emptyBlock))]) []
     = Ok ["export f(a, b)"].
Proof. split; reflexivity. Qed.

(** ** Sorting *)

Lemma leb_trans (a b c : string) :
  String.leb a b = true -> String.leb b c = true -> String.leb a c = true.
Proof.
  unfold String.leb.
  revert b c; induction a as [|x a IH]; intros [|y b] [|z c]; simpl;
    try congruence.
  unfold Ascii.compare.
  destruct (N.compare_spec (N_of_ascii x) (N_of_ascii y)) as [Exy|Lxy|Gxy];
    destruct (N.compare_spec (N_of_ascii y) (N_of_ascii z)) as [Eyz|Lyz|Gyz];
    destruct (N.compare_spec (N_of_ascii x) (N_of_ascii z)) as [Exz|Lxz|Gxz];
    try congruence; try lia.
  apply IH.
Qed.

Section SortBy.

Context {A : Type} (key : A -> string).

Lemma insert_by_perm (x : A) (xs : list A) : Permutation (x :: xs) (insert_by key x xs).
Proof.
  induction xs as [|y ys IH]; simpl; [reflexivity|].
  destruct (String.leb (key x) (key y)); [reflexivity|].
  rewrite perm_swap. constructor. assumption.
Qed.

Lemma sort_by_perm (xs : list A) : Permutation xs (sort_by key xs).
Proof.
  induction xs as [|x xs IH]; simpl; [constructor|].
  rewrite <- insert_by_perm. constructor. assumption.
Qed.

Lemma sort_by_In (x : A) (xs : list A) : In x (sort_by key xs) <-> In x xs.
Proof.
  split; apply Permutation_in; [symmetry|]; apply sort_by_perm.
Qed.

Lemma insert_by_sorted (x : A) (xs : list A) :
  StronglySorted (key_le key) xs -> StronglySorted (key_le key) (insert_by key x xs).
Proof.
  induction 1 as [|y ys Hs IH Hy]; simpl.
  - repeat constructor.
  - destruct (String.leb (key x) (key y)) eqn:E.
    + constructor; [constructor; assumption|].
      constructor; [exact E|].
      eapply Forall_impl; [|exact Hy].
      intros z Hz. unfold key_le in *. eapply leb_trans; eassumption.
    + constructor; [assumption|].
      assert (Hyx : key_le key y x).
      { unfold key_le. destruct (String.leb_total (key x) (key y)); congruence. }
      eapply Permutation_Forall; [apply insert_by_perm|].
      constructor; assumption.
Qed.

Lemma sort_by_sorted (xs : list A) : StronglySorted (key_le key) (sort_by key xs).
Proof.
  induction xs as [|x xs IH]; simpl; [constructor|].
  apply insert_by_sorted. assumption.
Qed.

End SortBy.

(** ** Filtering *)

Lemma filterM_Ok {A} (f : A -> result bool) (xs ys : list A) :
  filterM f xs = Ok ys ->
  (forall x, In x xs -> exists b, f x = Ok b) /\
  (forall x, In x ys <-> In x xs /\ f x = Ok true).
Proof.
  revert ys; induction xs as [|x xs IH]; simpl; intros ys H.
  - injection H as <-. split; [intros ? []|]. intros x; simpl; tauto.
  - destruct (f x) as [b|e] eqn:Ef; [|discriminate]. simpl in H.
    destruct (filterM f xs) as [rest|e] eqn:Er; [|discriminate]. simpl in H.
    injection H as <-.
    destruct (IH rest eq_refl) as [Hall Hin].
    split.
    + intros z [<-|Hz]; eauto.
    + intros z. destruct b; simpl; rewrite Hin; split.
      * intros [<-|H]; [auto | tauto].
      * intros [[<-|H] Hz]; [auto | tauto].
      * intros [H Hz]; auto.
      * intros [[<-|H] Hz]; [congruence | tauto].
Qed.

(** ** The listing of a directory *)


Lemma listDirs_Ok (config : Config) (relativePath : string) (items dirs : list listed) :
  listDirs config relativePath items = Ok dirs ->
  StronglySorted (key_le item_name) dirs /\
  forall it, In it dirs <->
    In it items /\ is_dir (fst it) /\ isHidden (item_name it) = false
    /\ shouldExcludePath config (Path.join relativePath (item_name it)) = false.
Proof.
  unfold listDirs. intros H.
  destruct (filterM _ items) as [kept|e] eqn:E; [|discriminate].
  injection H as <-.
  split; [apply sort_by_sorted|].
  intros it. rewrite sort_by_In.
  destruct (filterM_Ok _ _ _ E) as [_ Hin]. rewrite Hin. unfold is_dir.
  destruct (statSync_isDirectory (fst it)) as [[|]|e]; simpl;
    destruct (isHidden (item_name it)), (shouldExcludePath config _); simpl;
    intuition congruence.
Qed.



(** The directory [zzz] is printed before the file [aaa]. *)
Example zzz_before_aaa :
  main None true false NoConfigFile rejectText rejectAll "/proj" zzz_aaa
  = Ok ("├── zzz/" ++ nl ++ "└── aaa (1 lines)" ++ nl).
Proof. reflexivity. Qed.

(** ** Files *)

Lemma extractMethodSignatures_Ok
    (readFileSync : string -> result string) (parse : string -> result node)
    (compileFuncDef : string -> result (string -> option Regex.rmatch))
    (filePath : string) (includeAllMethods : bool) :
  exists signatures,
    extractMethodSignatures readFileSync parse compileFuncDef filePath includeAllMethods
    = Ok signatures.
Proof.
  unfold extractMethodSignatures, try_catch.
  destruct (readFileSync filePath) as [fileContent|e]; cbn [bind]; [|eauto].
  destruct (ast <- parse fileContent ;; walk _ ast []) as [found|e1]; [eauto|].
  destruct (extractMethodsFromRawContent _ _ _) as [found|e2]; eauto.
Qed.

Lemma methodLines_nil (methodPrefix : string) : methodLines methodPrefix [] = "".
Proof. reflexivity. Qed.

Lemma fileDetails_unreadable
    (showMethods showAllMethods : bool) (parse : string -> result node)
    (compileFuncDef : string -> result (string -> option Regex.rmatch))
    (config : Config) (name : string) (e : exn) (itemPath prefix : string)
    (isLastItem : bool) :
  fileDetails showMethods showAllMethods parse compileFuncDef config
    (File name (Throw e)) itemPath prefix isLastItem
  = " (error reading file)" ++ nl.
Proof. reflexivity. Qed.

Lemma fileDetails_readable
    (showMethods showAllMethods : bool) (parse : string -> result node)
    (compileFuncDef : string -> result (string -> option Regex.rmatch))
    (config : Config) (name text itemPath prefix : string) (isLastItem : bool) :
  exists methods,
    extractMethodSignatures (fun _ => Ok text) parse compileFuncDef itemPath showAllMethods
    = Ok methods /\
    fileDetails showMethods showAllMethods parse compileFuncDef config
      (File name (Ok text)) itemPath prefix isLastItem
    = " (" ++ string_of_nat (lineCount text) ++ " lines)" ++ nl
      ++ (if showMethods
             && includes (includeExtensions config) (Path.extname itemPath)
             && isScriptExtension (Path.extname itemPath)
          then methodLines (childPrefix prefix isLastItem) methods
          else "").
Proof.
  destruct (extractMethodSignatures_Ok (fun _ => Ok text) parse compileFuncDef
              itemPath showAllMethods) as [methods E].
  exists methods. split; [assumption|].
  unfold fileDetails. cbn [statSync_isDirectory readFileSync_entry bind].
  fold (lineCount text).
  rewrite !append_assoc.
  destruct showMethods; cbn [andb]; [|now rewrite !append_nil_r].
  destruct (includes (includeExtensions config) (Path.extname itemPath) &&
            isScriptExtension (Path.extname itemPath)); [|now rewrite !append_nil_r].
  rewrite E.
  destruct methods; [now rewrite methodLines_nil, !append_nil_r|].
  unfold childPrefix. rewrite !append_assoc. reflexivity.
Qed.





(** ** Completion of the traversal *)

Lemma entry_nested_ind (P : entry -> Prop) :
  (forall name content, P (File name content)) ->
  (forall name items, Forall P items -> P (Directory name items)) ->
  (forall name e, P (ClosedDirectory name e)) ->
  (forall name e, P (Dangling name e)) ->
  forall e, P e.
Proof.
  intros Hf Hd Hc Hg. fix IH 1.
  intros [name content|name items|name e|name e].
  - apply Hf.
  - apply Hd. induction items as [|x items IHl]; constructor; [apply IH | exact IHl].
  - apply Hc.
  - apply Hg.
Qed.

Lemma examinable_items (name : string) (items : list entry) :
  examinable (Directory name items) <-> Forall examinable items.
Proof.
  simpl. induction items as [|x items IH]; split; intros H.
  - constructor.
  - exact I.
  - destruct H as [Hx Hl]. constructor; [assumption | now apply IH].
  - inversion H; subst. split; [assumption | now apply IH].
Qed.

Lemma examinable_stat (e : entry) :
  examinable e -> exists b, statSync_isDirectory e = Ok b.
Proof. destruct e; simpl; intros H; eauto; contradiction. Qed.

Lemma filterM_total {A} (f : A -> result bool) (xs : list A) :
  (forall x, In x xs -> exists b, f x = Ok b) -> exists ys, filterM f xs = Ok ys.
Proof.
  induction xs as [|x xs IH]; simpl; intros H; [eauto|].
  destruct (H x (or_introl eq_refl)) as [b ->].
  destruct IH as [ys ->]; [intros; apply H; now right|].
  simpl. eauto.
Qed.

Lemma filterM_throws {A} (f : A -> result bool) (xs : list A) (x : A) (e : exn) :
  In x xs -> f x = Throw e -> exists e', filterM f xs = Throw e'.
Proof.
  induction xs as [|y xs IH]; simpl; intros Hin Hx; [contradiction|].
  destruct Hin as [->|Hin].
  - rewrite Hx. simpl. eauto.
  - destruct (f y); simpl; [|eauto].
    destruct (IH Hin Hx) as [e' ->]. simpl. eauto.
Qed.

Lemma forEach_last_total {A} (f : A -> bool -> result string) (xs : list A) :
  (forall x b, In x xs -> exists out, f x b = Ok out) ->
  exists out, forEach_last f xs = Ok out.
Proof.
  induction xs as [|x xs IH]; simpl; intros H; [eauto|].
  destruct (H x (match xs with [] => true | _ :: _ => false end) (or_introl eq_refl))
    as [out ->].
  destruct IH as [rest ->]; [intros; apply H; now right|].
  simpl. eauto.
Qed.

Section Completion.

Variable maxDepth : option Z.
Variable showMethods showAllMethods : bool.
Variable configSource : ConfigSource.
Variable parse : string -> result node.
Variable compileFuncDef : string -> result (string -> option Regex.rmatch).

Let generate := generateTree maxDepth showMethods showAllMethods configSource parse
                  compileFuncDef.

Lemma generateTree_Directory (name : string) (items : list entry) :
  generate (Directory name items)
  = generateTree_in maxDepth showMethods showAllMethods configSource parse
      compileFuncDef (Ok (map (fun it => (it, generate it)) items)).
Proof. reflexivity. Qed.

(** When every entry can be examined the traversal returns, whatever the
    files hold and whether or not they can be read. *)
Lemma traversal_completes (dir : entry) :
  examinable dir ->
  forall name items, dir = Directory name items ->
  forall dirPath level relativePath isLast prefix,
  exists output, generate dir dirPath level relativePath isLast prefix = Ok output.
Proof.
  induction dir as [n c|n its IH|n e|n e] using entry_nested_ind;
    intros Hex name items Hdir; try discriminate.
  injection Hdir as -> ->.
  intros dirPath level relativePath isLast prefix.
  rewrite generateTree_Directory. unfold generateTree_in.
  destruct (beyondMaxDepth maxDepth level); [eauto|].
  destruct (Nat.ltb 0 level && shouldExcludePath _ relativePath); [eauto|].
  cbn [bind].
  apply examinable_items in Hex.
  set (listing := map (fun it => (it, generate it)) items).
  assert (Hl : forall it, In it listing ->
                 In (fst it) items /\ snd it = generate (fst it)).
  { intros it Hit. apply in_map_iff in Hit. destruct Hit as (x & <- & Hx). auto. }
  assert (Hstat : forall it, In it listing -> exists b, statSync_isDirectory (fst it) = Ok b).
  { intros it Hit. apply examinable_stat.
    rewrite Forall_forall in Hex. apply Hex, Hl, Hit. }
  unfold allItems, listFiles.
  match goal with
  | |- context [filterM ?f listing] => destruct (filterM_total f listing) as [files Ef]
  end.
  { intros it Hit. destruct (Hstat it Hit) as [b ->]. simpl. eauto. }
  rewrite Ef. cbn [bind]. unfold listDirs.
  match goal with
  | |- context [filterM ?f listing] => destruct (filterM_total f listing) as [dirs Ed]
  end.
  { intros it Hit. destruct (Hstat it Hit) as [b ->]. simpl. eauto. }
  rewrite Ed. cbn [bind].
  apply forEach_last_total.
  intros it b Hit.
  assert (Hin : In it listing).
  { apply in_app_or in Hit. destruct Hit as [Hit|Hit];
      apply sort_by_In in Hit;
      [ apply (proj2 (filterM_Ok _ _ _ Ed)) in Hit
      | apply (proj2 (filterM_Ok _ _ _ Ef)) in Hit ]; tauto. }
  destruct (Hl it Hin) as [Hitem Hsnd].
  destruct (Hstat it Hin) as [isDir Hb].
  unfold renderItem. rewrite Hsnd, Hb. cbn [bind].
  destruct isDir; [|eauto].
  rewrite Forall_forall in IH, Hex.
  pose proof (Hex _ Hitem) as Hexi.
  destruct (fst it) as [fname content|dname ditems|cname e|lname e];
    try discriminate; try contradiction.
  destruct (IH _ Hitem Hexi dname ditems eq_refl
              (Path.join dirPath (item_name it)) (S level)
              (Path.join relativePath (item_name it)) b
              (prefix ++ (if b then "   " else TREE_CHARS.VERTICAL ++ "  ")))
    as [below ->].
  cbn [bind]. eauto.
Qed.

(** An entry that cannot be examined, in a directory that is listed, makes
    [generateTree] throw. *)
Lemma dangling_entry_throws (items : list listed) (it : listed) (name : string) (e : exn)
    (dirPath : string) (level : nat) (relativePath : string) (isLast : bool)
    (prefix : string) :
  In it items -> fst it = Dangling name e ->
  beyondMaxDepth maxDepth level = false ->
  Nat.ltb 0 level && shouldExcludePath (loadConfig configSource) relativePath = false ->
  exists e',
    generateTree_in maxDepth showMethods showAllMethods configSource parse compileFuncDef
      (Ok items) dirPath level relativePath isLast prefix = Throw e'.
Proof.
  intros Hin Hd H1 H2. unfold generateTree_in. rewrite H1, H2. cbn [bind].
  unfold allItems, listFiles.
  match goal with
  | |- context [filterM ?f items] =>
      destruct (filterM_throws f items it e Hin) as [e' ->]
  end.
  - rewrite Hd. reflexivity.
  - simpl. eauto.
Qed.

End Completion.

(** ** Entries that cannot be examined *)

(** C8. A directory that holds a link whose target is missing: [statSync]
    throws while the entries are being classified, outside any [try]
    block, and [generateTree] throws; no line is produced, not even for
    the readable file beside the link. *)
Theorem dangling_link_aborts_traversal :
  main None true false NoConfigFile rejectText rejectAll "/proj" with_dangling_link
  = Throw (SystemError "ENOENT").
Proof. reflexivity. Qed.

(** A file whose content cannot be read is contained: it keeps its line,
    with the marker in place of the line count. *)
Example unreadable_file_is_marked :
  main None true false NoConfigFile rejectText rejectAll "/proj"
    (Directory "proj" [File "a.js" (Throw (SystemError "EACCES"));
                       File "b.js" (Ok "let x")])
  = Ok ("├── a.js (error reading file)" ++ nl ++ "└── b.js (1 lines)" ++ nl).
Proof. reflexivity. Qed.


(** * Further properties *)

(** ** The command line *)

Lemma processArgs_after_help_bounded (n : nat) :
  forall pre post o h, (h = "--help" \/ h = "-h") -> List.length pre <= n ->
  processArgs (pre ++ h :: post) o = processArgs (pre ++ [h]) o.
Proof.
  induction n as [|n IH]; intros pre post o h Hh Hlen.
  - destruct pre; [|simpl in Hlen; lia]. destruct Hh as [->| ->]; reflexivity.
  - destruct pre as [|arg pre]; [destruct Hh as [->| ->]; reflexivity|].
    simpl in Hlen. cbn [app processArgs].
    destruct (startsWith arg "--" || startsWith arg "-"); [|apply IH; [assumption|lia]].
    destruct (String.eqb arg "--help" || String.eqb arg "-h"); [reflexivity|].
    destruct (String.eqb arg "--depth" || String.eqb arg "-d").
    + destruct pre as [|value pre]; cbn [app].
      * destruct Hh as [->| ->]; reflexivity.
      * destruct (parseInt value); [|reflexivity]. apply IH; [assumption|simpl in Hlen; lia].
    + destruct (String.eqb arg "--no-methods"); [apply IH; [assumption|lia]|].
      destruct (String.eqb arg "--all-methods"); apply IH; assumption || lia.
Qed.

(** X1. Whatever follows [--help] or [-h] on the command line is never
    read: the loop over the arguments gives the same result, options or
    exit, as if the command line ended there.  (When the word stands
    where [--depth] takes its value it is read as that value, with or
    without what follows.) *)
Theorem arguments_after_help_are_ignored (pre post : list string) (o : Options) :
  processArgs (pre ++ "--help" :: post) o = processArgs (pre ++ ["--help"]) o
  /\ processArgs (pre ++ "-h" :: post) o = processArgs (pre ++ ["-h"]) o.
Proof.
  split; apply (processArgs_after_help_bounded (List.length pre)); auto.
Qed.

Lemma processArgs_positional_bounded (n : nat) :
  forall args, List.length args <= n -> forall o o',
  processArgs args o = Continue o' ->
  exists added,
    opt_positionalArgs o' = (opt_positionalArgs o ++ added)%list
    /\ Forall (fun arg => isFlag arg = false /\ In arg args) added.
Proof.
  assert (W : forall (a : string) l added,
            Forall (fun arg => isFlag arg = false /\ In arg l) added ->
            Forall (fun arg => isFlag arg = false /\ In arg (a :: l)) added).
  { intros a l added H. eapply Forall_impl; [|exact H]. simpl. tauto. }
  induction n as [|n IH]; intros l Hlen o o' H.
  - destruct l; [|simpl in Hlen; lia]. injection H as <-.
    exists []. now rewrite app_nil_r.
  - destruct l as [|arg rest].
    + injection H as <-. exists []. now rewrite app_nil_r.
    + simpl in Hlen. cbn [processArgs] in H. fold (isFlag arg) in H.
      destruct (isFlag arg) eqn:F.
      * destruct (String.eqb arg "--help" || String.eqb arg "-h").
        { injection H as <-. exists []. now rewrite app_nil_r. }
        destruct (String.eqb arg "--depth" || String.eqb arg "-d").
        { destruct rest as [|value rest'].
          - injection H as <-. exists []. now rewrite app_nil_r.
          - destruct (parseInt value); [|discriminate].
            apply IH in H; [|simpl in Hlen; lia].
            destruct H as (added & E & Hall). exists added. split; [exact E|].
            now apply W, W. }
        destruct (String.eqb arg "--no-methods").
        { apply IH in H; [|lia]. destruct H as (added & E & Hall).
          exists added. split; [exact E|]. now apply W. }
        destruct (String.eqb arg "--all-methods");
          (apply IH in H; [|lia]; destruct H as (added & E & Hall);
           exists added; split; [exact E|]; now apply W).
      * apply IH in H; [|lia]. destruct H as (added & E & Hall).
        exists (arg :: added). split.
        { rewrite E. cbn [opt_positionalArgs]. unfold push.
          now rewrite <- app_assoc. }
        constructor; [split; [exact F|now left]|]. now apply W.
Qed.

Lemma processArgs_exit_bounded (n : nat) (status : nat) (message : string) :
  forall args, List.length args <= n -> forall o,
  processArgs args o = Exit status message -> status = 1.
Proof.
  induction n as [|n IH]; intros l Hlen o H.
  - destruct l; [discriminate|simpl in Hlen; lia].
  - destruct l as [|arg rest]; [discriminate|].
    simpl in Hlen. cbn [processArgs] in H.
    destruct (startsWith arg "--" || startsWith arg "-"); [|eapply IH; [|exact H]; lia].
    destruct (String.eqb arg "--help" || String.eqb arg "-h"); [discriminate|].
    destruct (String.eqb arg "--depth" || String.eqb arg "-d").
    + destruct rest as [|value rest']; [discriminate|].
      destruct (parseInt value); [|now injection H].
      eapply IH; [|exact H]. simpl in Hlen. lia.
    + destruct (String.eqb arg "--no-methods"); [eapply IH; [|exact H]; lia|].
      destruct (String.eqb arg "--all-methods"); (eapply IH; [|exact H]; lia).
Qed.

(** X2. When the loop over the arguments ends without leaving the
    process, every positional argument it has collected is one of the
    arguments and does not start with [-]: a directory whose name starts
    with a dash cannot be given.  When the loop leaves the process, the
    exit status is 1. *)
Theorem positional_arguments_are_not_flags (args : list string) :
  match processArgs args initialOptions with
  | Continue o =>
      Forall (fun arg => startsWith arg "-" = false /\ In arg args) (opt_positionalArgs o)
  | Exit status _ => status = 1
  end.
Proof.
  destruct (processArgs args initialOptions) as [o|status message] eqn:E.
  - apply (processArgs_positional_bounded (List.length args)) in E; [|lia].
    destruct E as (added & -> & H).
    cbn [opt_positionalArgs initialOptions app].
    eapply Forall_impl; [|exact H]. intros arg [F Hin]. split; [|exact Hin].
    unfold isFlag in F. now apply orb_false_elim in F.
  - apply (processArgs_exit_bounded (List.length args)) in E; [exact E|lia].
Qed.



(** ** Exclusion rules *)

Lemma existsb_true {A} (f : A -> bool) (x : A) (xs : list A) :
  In x xs -> f x = true -> existsb f xs = true.
Proof. intros Hin Hf. apply existsb_exists. eauto. Qed.

Lemma basename_join (dirPath item : string) :
  ~ occurs Path.slash item -> Path.basename (Path.join dirPath item) = item.
Proof.
  intros H. unfold Path.basename, Path.join.
  destruct dirPath as [|a d].
  - now rewrite split_free.
  - change (String a d ++ "/" ++ item) with (String a d ++ String Path.slash item).
    rewrite split_append, (split_free _ item H). apply last_last.
Qed.

(** X4. No configuration file can bring back what the built-in rules
    exclude: whatever [loadConfig] finds, a path with a segment
    [node_modules] is excluded, and so is a file named
    [package-lock.json] in any directory. *)
Theorem defaults_cannot_be_overridden (src : ConfigSource) :
  (forall relativePath,
     is_segment "node_modules" relativePath ->
     shouldExcludePath (loadConfig src) relativePath = true)
  /\ (forall dirPath,
        shouldExcludeFile (loadConfig src) (Path.join dirPath "package-lock.json") = true).
Proof.
  split.
  - intros relativePath H. apply split_segment in H. apply includes_In in H.
    unfold shouldExcludePath.
    assert (E : exists rules, excludePaths (loadConfig src) = "node_modules" :: rules)
      by (destruct src; simpl; eauto).
    destruct E as [rules ->]. cbn [existsb]. cbv zeta. rewrite H.
    destruct (String.eqb relativePath "node_modules"); [reflexivity|].
    destruct (startsWith relativePath _); reflexivity.
  - intros dirPath. unfold shouldExcludeFile. cbv zeta.
    rewrite basename_join.
    + assert (E : exists names, excludeFiles (loadConfig src) = "package-lock.json" :: names)
        by (destruct src; simpl; eauto).
      destruct E as [names ->]. reflexivity.
    + simpl. intros H. repeat (destruct H as [H|H]; [discriminate H|]). exact H.
Qed.

(** X5. Exclusion is inherited: when a relative path is excluded, so is
    the path of every entry below it. *)
Theorem exclusion_is_inherited (config : Config) (relativePath item : string) :
  relativePath <> "" ->
  shouldExcludePath config relativePath = true ->
  shouldExcludePath config (Path.join relativePath item) = true.
Proof.
  intros Hne H. unfold shouldExcludePath in *.
  apply existsb_exists in H. destruct H as (rule & Hin & H).
  apply (existsb_true _ rule); [assumption|].
  assert (J : Path.join relativePath item = relativePath ++ String Path.slash item)
    by (destruct relativePath; [congruence | reflexivity]).
  rewrite J.
  assert (S1 : forall rest, relativePath = rule ++ "/" ++ rest ->
               startsWith (relativePath ++ String Path.slash item) (rule ++ "/") = true).
  { intros rest ->. apply prefix_append_iff.
    exists (rest ++ String Path.slash item). now rewrite !append_assoc. }
  destruct (String.eqb relativePath rule) eqn:E1.
  - apply String.eqb_eq in E1. subst rule.
    destruct (String.eqb (relativePath ++ String Path.slash item) relativePath);
      [reflexivity|].
    assert (E : startsWith (relativePath ++ String Path.slash item) (relativePath ++ "/")
                = true).
    { apply prefix_append_iff. exists item. now rewrite append_assoc. }
    now rewrite E.
  - destruct (String.eqb (relativePath ++ String Path.slash item) rule); [reflexivity|].
    destruct (startsWith relativePath (rule ++ "/")) eqn:E2.
    + apply prefix_append_iff in E2. destruct E2 as [rest E2].
      rewrite append_assoc in E2. now rewrite (S1 rest E2).
    + destruct (startsWith (relativePath ++ String Path.slash item) (rule ++ "/"));
        [reflexivity|].
      cbv zeta in H |- *. apply includes_In. apply includes_In in H.
      rewrite split_append. apply in_or_app. now left.
Qed.

Lemma exclusion_is_inherited_witness :
  "src/node_modules" <> ""
  /\ shouldExcludePath DEFAULT_CONFIG "src/node_modules" = true
  /\ shouldExcludePath DEFAULT_CONFIG (Path.join "src/node_modules" "left-pad") = true.
Proof.
  split; [discriminate|]. split; [reflexivity|].
  apply exclusion_is_inherited; [discriminate | reflexivity].
Defined.

(** ** The walker only appends *)

Lemma node_children_ind (P : node -> Prop) :
  (forall n, Forall P (children n) -> P n) -> forall n, P n.
Proof.
  intros H. fix IH 1. intros n. apply H.
  destruct n as [name|value|lhs rhs|argument|properties|key computed value|elements
                |id params async body|id params async body|params async body
                |key computed value|declarations|id init|declaration|declaration
                |type cs]; simpl;
    repeat match goal with
           | o : option node |- _ => destruct o; simpl
           | b : bool |- _ => destruct b; simpl
           end;
    repeat first
      [ apply Forall_nil
      | apply Forall_cons; [apply IH|]
      | apply Forall_app; split
      | match goal with
        | |- Forall P ?l =>
            is_var l; induction l; constructor; [apply IH | assumption]
        end ].
Qed.

Lemma forEach_ext {A} (f g : A -> list string -> result (list string)) (xs : list A) s :
  (forall x s, f x s = g x s) -> forEach f xs s = forEach g xs s.
Proof.
  intros H. revert s. induction xs as [|x xs IH]; intros s; simpl; [reflexivity|].
  rewrite H. destruct (g x s); simpl; auto.
Qed.

Lemma forEach_appending_on {A} (f : A -> list string -> result (list string))
    (xs : list A) :
  Forall (fun x => forall s, f x s = (added <- f x [] ;; Ok (s ++ added)%list)) xs ->
  forall s, forEach f xs s = (added <- forEach f xs [] ;; Ok (s ++ added)%list).
Proof.
  induction 1 as [|x xs Hx _ IH]; intros s; simpl.
  - now rewrite app_nil_r.
  - rewrite (Hx s). destruct (f x []) as [a|e]; simpl; [|reflexivity].
    rewrite (IH (s ++ a)%list), (IH a).
    destruct (forEach f xs []) as [b|e]; simpl; [|reflexivity].
    now rewrite app_assoc.
Qed.

Lemma forEach_appending {A} (f : A -> list string -> result (list string)) :
  appending f -> appending (fun xs => forEach f xs).
Proof.
  intros Hf xs s. apply forEach_appending_on. apply Forall_forall. intros x _ s0. apply Hf.
Qed.

Lemma walk_appending (v : visitors) : appending (visit v) -> appending (walk v).
Proof.
  intros Hv n. induction n as [n IH] using node_children_ind. intros s.
  rewrite !walk_eq.
  rewrite (forEach_appending_on _ _ IH s).
  destruct (forEach (walk v) (children n) []) as [a|e]; simpl; [|reflexivity].
  rewrite (Hv n (s ++ a)%list), (Hv n a).
  destruct (visit v n []) as [b|e]; simpl; [|reflexivity].
  now rewrite app_assoc.
Qed.

Lemma exported_declarator_appending : appending visit_exported_declarator.
Proof.
  intros d s. unfold visit_exported_declarator, push.
  destruct (init_of d) as [init|]; simpl; [|now rewrite app_nil_r].
  destruct (isFunctionValue init); simpl; [|now rewrite app_nil_r].
  destruct (id_of d); simpl; [|reflexivity].
  destruct (extractParams_of init); simpl; reflexivity.
Qed.

Lemma signatureVisitors_appending (includeAllMethods : bool) :
  appending (visit (signatureVisitors includeAllMethods)).
Proof.
  intros n s. destruct n; simpl; try (now rewrite app_nil_r).
  - unfold visit_FunctionDeclaration, push. simpl.
    destruct id as [id|]; simpl; [|now rewrite app_nil_r].
    destruct (includeAllMethods && truthy (name_of id)); simpl; [reflexivity|].
    now rewrite app_nil_r.
  - unfold visit_MethodDefinition, push.
    destruct includeAllMethods; simpl; [|now rewrite app_nil_r].
    destruct (extractParams_of n2); simpl; reflexivity.
  - unfold visit_VariableDeclarator, push. simpl.
    destruct init as [init|]; simpl; [|now rewrite app_nil_r].
    destruct (includeAllMethods && truthy (name_of n) && isFunctionValue init); simpl;
      [|now rewrite app_nil_r].
    destruct (extractParams_of init); simpl; reflexivity.
  - unfold visit_ExportNamedDeclaration, push.
    destruct declaration as [d|]; simpl; [|now rewrite app_nil_r].
    destruct d; simpl; try (now rewrite app_nil_r).
    + destruct id; simpl; reflexivity.
    + apply (forEach_appending _ exported_declarator_appending).
  - unfold visit_ExportDefaultDeclaration, push.
    destruct n; simpl; try reflexivity; now rewrite app_nil_r.
Qed.

Lemma legacy_signatureVisitors_appending : appending (visit Legacy.signatureVisitors).
Proof.
  intros n s. destruct n; simpl; try (now rewrite app_nil_r).
  - unfold Legacy.visit_FunctionDeclaration, push. simpl.
    destruct id as [id|]; simpl; [|now rewrite app_nil_r].
    destruct (truthy (name_of id)); simpl; [reflexivity|].
    now rewrite app_nil_r.
  - unfold Legacy.visit_MethodDefinition, visit_MethodDefinition, push.
    destruct (extractParams_of n2); simpl; reflexivity.
  - unfold Legacy.visit_VariableDeclarator, visit_VariableDeclarator, push. simpl.
    destruct init as [init|]; simpl; [|now rewrite app_nil_r].
    destruct (truthy (name_of n) && isFunctionValue init); simpl;
      [|now rewrite app_nil_r].
    destruct (extractParams_of init); simpl; reflexivity.
  - unfold Legacy.visit_ExportNamedDeclaration, push.
    destruct declaration as [d|]; simpl; [|now rewrite app_nil_r].
    destruct d; simpl; try (now rewrite app_nil_r).
    destruct id; simpl; reflexivity.
  - unfold Legacy.visit_ExportDefaultDeclaration, push.
    destruct n; simpl; try reflexivity; now rewrite app_nil_r.
Qed.

(** X6. The walk only appends, in both revisions of the script: walking
    a tree from an array of signatures gives that array followed by what
    the walk gives from the empty array, and throws exactly when the walk
    from the empty array throws.  So the signatures of a node without a
    visitor of its own, such as the program, are those of its children,
    one child after the other in the order of the source. *)
Theorem walk_only_appends (includeAllMethods : bool) (n : node) (signatures : list string) :
  let v := signatureVisitors includeAllMethods in
  walk v n signatures
  = (added <- walk v n [] ;; Ok (signatures ++ added)%list)
  /\
  walk Legacy.signatureVisitors n signatures
  = (added <- walk Legacy.signatureVisitors n [] ;; Ok (signatures ++ added)%list)
  /\
  forall type body,
    walk v (Other type body) []
    = forEach (fun statement found =>
                 added <- walk v statement [] ;; Ok (found ++ added)%list) body [].
Proof.
  intros v. split; [|split].
  - apply walk_appending, signatureVisitors_appending.
  - apply walk_appending, legacy_signatureVisitors_appending.
  - intros type body. rewrite walk_eq. simpl.
    destruct (forEach (walk v) body []) eqn:E; simpl; rewrite <- E;
      apply forEach_ext; intros x s;
      apply walk_appending, signatureVisitors_appending.
Qed.

(** ** What the default mode reports *)

Lemma forEach_Forall {A} (P : string -> Prop)
    (f : A -> list string -> result (list string)) (xs : list A) :
  (forall x s s', Forall P s -> f x s = Ok s' -> Forall P s') ->
  forall s s', Forall P s -> forEach f xs s = Ok s' -> Forall P s'.
Proof.
  intros Hf. induction xs as [|x xs IH]; simpl; intros s s' Hs H.
  - now injection H as <-.
  - destruct (f x s) as [s1|] eqn:E; simpl in H; [|discriminate].
    eapply IH; [|exact H]. eapply Hf; eauto.
Qed.

Lemma forEach_Forall_on {A} (P : string -> Prop)
    (f : A -> list string -> result (list string)) (xs : list A) :
  Forall (fun x => forall s s', Forall P s -> f x s = Ok s' -> Forall P s') xs ->
  forall s s', Forall P s -> forEach f xs s = Ok s' -> Forall P s'.
Proof.
  induction 1 as [|x xs Hx _ IH]; simpl; intros s s' Hs H.
  - now injection H as <-.
  - destruct (f x s) as [s1|] eqn:E; simpl in H; [|discriminate].
    eapply IH; [|exact H]. eapply Hx; eauto.
Qed.

Lemma walk_Forall (P : string -> Prop) (v : visitors) :
  (forall n s s', Forall P s -> visit v n s = Ok s' -> Forall P s') ->
  forall n s s', Forall P s -> walk v n s = Ok s' -> Forall P s'.
Proof.
  intros Hv n. induction n as [n IH] using node_children_ind. intros s s' Hs.
  rewrite walk_eq.
  destruct (forEach (walk v) (children n) s) as [s1|] eqn:E; simpl; [|discriminate].
  intros H. eapply Hv; [|exact H].
  eapply forEach_Forall_on; eauto.
Qed.

Lemma exportTagged_intro (rest : string) : exportTagged ("export " ++ rest).
Proof. apply prefix_append_iff. now exists rest. Qed.

Ltac tagged :=
  first [ apply exportTagged_intro | apply (exportTagged_intro ("default " ++ _)) ].

Lemma Forall_push (P : string -> Prop) (s : list string) (x : string) :
  Forall P s -> P x -> Forall P (push s x).
Proof. intros Hs Hx. apply Forall_app. split; [assumption|]. now constructor. Qed.

Lemma exported_declarator_tagged (d : node) (s s' : list string) :
  Forall exportTagged s -> visit_exported_declarator d s = Ok s' -> Forall exportTagged s'.
Proof.
  intros Hs. unfold visit_exported_declarator.
  destruct (init_of d) as [init|]; [|now intros [= <-]].
  destruct (isFunctionValue init); [|now intros [= <-]].
  destruct (id_of d); simpl; [|discriminate].
  destruct (extractParams_of init); simpl; [|discriminate].
  intros [= <-]. apply Forall_push; [assumption|tagged].
Qed.

Lemma exportedOnly_visit_tagged (n : node) (s s' : list string) :
  Forall exportTagged s -> visit (signatureVisitors false) n s = Ok s' ->
  Forall exportTagged s'.
Proof.
  intros Hs. destruct n; simpl; try (now intros [= <-]).
  - unfold visit_FunctionDeclaration. simpl. destruct id; simpl; now intros [= <-].
  - unfold visit_VariableDeclarator. simpl. destruct init; simpl; now intros [= <-].
  - unfold visit_ExportNamedDeclaration.
    destruct declaration as [d|]; [|now intros [= <-]].
    destruct d; try (now intros [= <-]).
    + destruct id; simpl; [|discriminate].
      intros [= <-]. apply Forall_push; [assumption|tagged].
    + apply forEach_Forall; [|assumption]. intros x. apply exported_declarator_tagged.
  - unfold visit_ExportDefaultDeclaration.
    destruct n; try (now intros [= <-]);
      intros [= <-]; (apply Forall_push; [assumption|tagged]).
Qed.

Lemma signature_exportedName_tagged compileFuncDef (fileContent name : string)
    (s s' : list string) :
  Forall exportTagged s ->
  signature_exportedName compileFuncDef fileContent name s = Ok s' ->
  Forall exportTagged s'.
Proof.
  intros Hs. unfold signature_exportedName.
  destruct (newFuncDefRegExp compileFuncDef name) as [funcDefExec|]; simpl; [|discriminate].
  destruct (funcDefExec fileContent); [|now intros [= <-]].
  intros [= <-]. apply Forall_push; [assumption|tagged].
Qed.

Lemma signature_exportedFunction_tagged (m : Regex.rmatch) :
  exportTagged (signature_exportedFunction m).
Proof.
  unfold signature_exportedFunction.
  destruct (str_includes (Regex.fullMatch m) "default"); tagged.
Qed.

Lemma signature_exportedArrow_tagged (m : Regex.rmatch) :
  exportTagged (signature_exportedArrow m).
Proof.
  unfold signature_exportedArrow.
  destruct (str_includes (Regex.fullMatch m) "default"); tagged.
Qed.

Lemma fallback_exportedOnly_tagged compileFuncDef (fileContent : string)
    (result : list string) :
  extractMethodsFromRawContent compileFuncDef fileContent false = Ok result ->
  Forall exportTagged result.
Proof.
  unfold extractMethodsFromRawContent. cbn [app].
  apply forEach_Forall.
  - intros m s s' Hs. apply forEach_Forall; [|assumption].
    intros name. apply signature_exportedName_tagged.
  - apply Forall_app. split; apply Forall_forall; intros x Hx;
      apply in_map_iff in Hx; destruct Hx as (m & <- & _).
    + apply signature_exportedFunction_tagged.
    + apply signature_exportedArrow_tagged.
Qed.

(** X7. Without [--all-methods] the extractor returns, and every
    signature it returns starts with [export ]: whatever the file, the
    parser and the pattern compiler do, and whichever of the two
    strategies produced the list, nothing that is not exported is
    reported. *)
Theorem exportedOnly_reports_exports
    (readFileSync : string -> result string) (parse : string -> result node)
    (compileFuncDef : string -> result (string -> option Regex.rmatch))
    (filePath : string) :
  exists signatures,
    extractMethodSignatures readFileSync parse compileFuncDef filePath false
    = Ok signatures /\
    Forall (fun signature => startsWith signature "export " = true) signatures.
Proof.
  unfold extractMethodSignatures, try_catch, bind.
  destruct (readFileSync filePath) as [fileContent|]; [|eauto].
  assert (F : exists found,
            match extractMethodsFromRawContent compileFuncDef fileContent false with
            | Ok a => Ok a
            | Throw _ => Ok []
            end = Ok found /\ Forall exportTagged found).
  { destruct (extractMethodsFromRawContent compileFuncDef fileContent false)
      as [found|] eqn:F; [|eauto].
    exists found. split; [reflexivity|]. exact (fallback_exportedOnly_tagged _ _ _ F). }
  destruct (parse fileContent) as [ast|]; [|exact F].
  destruct (walk (signatureVisitors false) ast []) as [found|] eqn:E; [|exact F].
  exists found. split; [reflexivity|].
  apply (walk_Forall exportTagged _ exportedOnly_visit_tagged ast [] found);
    [constructor | exact E].
Qed.

Lemma forEach_unchanged {A} (f : A -> list string -> result (list string)) (xs : list A) :
  Forall (fun x => forall s, f x s = Ok s) xs -> forall s, forEach f xs s = Ok s.
Proof.
  induction 1 as [|x xs Hx _ IH]; intros s; simpl; [reflexivity|].
  rewrite Hx. simpl. apply IH.
Qed.

Lemma forEach_total_on {A} (f : A -> list string -> result (list string)) (xs : list A) :
  Forall (fun x => forall s, exists s', f x s = Ok s') xs ->
  forall s, exists s', forEach f xs s = Ok s'.
Proof.
  induction 1 as [|x xs Hx _ IH]; intros s; simpl; [eauto|].
  destruct (Hx s) as [s1 ->]. simpl. apply IH.
Qed.

Lemma Forall_within (P : node -> Prop) (n : node) :
  (forall d, within d n -> P d) ->
  Forall (fun c => forall d, within d c -> P d) (children n).
Proof.
  intros H. apply Forall_forall. intros c Hc d Hd. apply H.
  exact (within_child d c n Hc Hd).
Qed.

Lemma within_inv (d n : node) :
  within d n -> d = n \/ Exists (within d) (children n).
Proof.
  intros H. destruct H as [|c n Hc Hd]; [now left|].
  right. apply Exists_exists. eauto.
Qed.

Ltac within_cases H :=
  apply within_inv in H; destruct H as [->|H]; [reflexivity|];
  cbn [children app opt_list] in H;
  repeat match type of H with
         | Exists _ [] => inversion H
         | Exists _ (_ :: _) =>
             apply Exists_cons in H; destruct H as [H|H]; [within_cases H|]
         end.

Lemma unexported_module_has_no_export (d : node) :
  within d unexported_module -> isExport d = false.
Proof. intros H. unfold unexported_module, Program, emptyBlock in H. within_cases H. Qed.

Lemma unexported_module_is_shaped (d : node) :
  within d unexported_module -> shaped d = true.
Proof. intros H. unfold unexported_module, Program, emptyBlock in H. within_cases H. Qed.

(** X8. Without [--all-methods], walking a tree in which the walker
    meets no export declaration adds nothing and does not throw: the
    array of signatures comes back as it was, whatever functions,
    methods and function-valued variables the tree declares. *)
Theorem exportedOnly_without_exports (n : node) (signatures : list string) :
  (forall d, within d n -> isExport d = false) ->
  walk (signatureVisitors false) n signatures = Ok signatures.
Proof.
  revert signatures. induction n as [n IH] using node_children_ind.
  intros signatures H. rewrite walk_eq.
  rewrite forEach_unchanged.
  - simpl. pose proof (H n (within_here n)) as Hn.
    destruct n; simpl in Hn |- *; try reflexivity; try discriminate.
    + unfold visit_FunctionDeclaration. simpl. now destruct id.
    + unfold visit_VariableDeclarator. simpl. now destruct init.
  - pose proof (Forall_within _ n H) as Hc.
    rewrite Forall_forall in IH, Hc. apply Forall_forall.
    intros c Hin s. apply IH; [exact Hin | exact (Hc c Hin)].
Qed.

Lemma exportedOnly_without_exports_witness :
  (forall d, within d unexported_module -> isExport d = false)
  /\ walk (signatureVisitors false) unexported_module [] = Ok []
  /\ walk (signatureVisitors true) unexported_module [] = Ok ["helper(x)"; "run()"].
Proof.
  split; [exact unexported_module_has_no_export|].
  split; [|reflexivity].
  exact (exportedOnly_without_exports unexported_module []
           unexported_module_has_no_export).
Defined.

Lemma functionValue_params (init : node) :
  isFunctionValue init = true -> exists params, extractParams_of init = Ok params.
Proof. destruct init; simpl; try discriminate; unfold extractParams_of; simpl; eauto. Qed.

Lemma exported_declarator_total (d : node) (s : list string) :
  exists s', visit_exported_declarator d s = Ok s'.
Proof.
  unfold visit_exported_declarator.
  destruct d; simpl; eauto.
  destruct init as [init|]; simpl; eauto.
  destruct (isFunctionValue init) eqn:E; eauto.
  destruct (functionValue_params init E) as [params ->]. simpl. eauto.
Qed.

Lemma exportNamed_total (n : node) (s : list string) :
  shaped n = true -> exists s', visit_ExportNamedDeclaration n s = Ok s'.
Proof.
  unfold visit_ExportNamedDeclaration.
  destruct n; eauto. destruct declaration as [d|]; eauto.
  destruct d; eauto.
  - destruct id; simpl; [eauto|discriminate].
  - intros _. apply forEach_total_on. apply Forall_forall.
    intros x _ s0. apply exported_declarator_total.
Qed.

Lemma signatureVisitors_total (includeAllMethods : bool) (n : node) (s : list string) :
  shaped n = true -> exists s', visit (signatureVisitors includeAllMethods) n s = Ok s'.
Proof.
  intros Hn. destruct n; simpl; eauto.
  - unfold visit_FunctionDeclaration. simpl. destruct id as [id|]; eauto.
    destruct (includeAllMethods && truthy (name_of id)); simpl; eauto.
  - unfold visit_MethodDefinition. destruct includeAllMethods; eauto.
    simpl in Hn. unfold extractParams_of. destruct (params_of n2); [|discriminate].
    simpl. eauto.
  - unfold visit_VariableDeclarator. simpl. destruct init as [init|]; eauto.
    destruct (isFunctionValue init) eqn:E.
    + destruct (functionValue_params init E) as [params ->].
      destruct (includeAllMethods && truthy (name_of n) && true); simpl; eauto.
    + rewrite andb_false_r. eauto.
  - exact (exportNamed_total (ExportNamedDeclaration declaration) s Hn).
  - unfold visit_ExportDefaultDeclaration. destruct n; eauto.
Qed.

Lemma legacy_signatureVisitors_total (n : node) (s : list string) :
  shaped n = true -> exists s', visit Legacy.signatureVisitors n s = Ok s'.
Proof.
  intros Hn. destruct n; simpl; eauto.
  - unfold Legacy.visit_FunctionDeclaration. simpl. destruct id as [id|]; eauto.
    destruct (truthy (name_of id)); simpl; eauto.
  - apply (signatureVisitors_total true (MethodDefinition n1 computed n2) s Hn).
  - apply (signatureVisitors_total true (VariableDeclarator n init) s Hn).
  - unfold Legacy.visit_ExportNamedDeclaration.
    destruct declaration as [d|]; eauto. destruct d; eauto.
    destruct id; simpl; [eauto|discriminate].
  - unfold Legacy.visit_ExportDefaultDeclaration. destruct n; eauto.
Qed.

Lemma walk_total (v : visitors) :
  (forall n s, shaped n = true -> exists s', visit v n s = Ok s') ->
  forall n, (forall d, within d n -> shaped d = true) ->
  forall s, exists s', walk v n s = Ok s'.
Proof.
  intros Hv n. induction n as [n IH] using node_children_ind.
  intros H s. rewrite walk_eq.
  destruct (forEach_total_on (walk v) (children n)) with (s := s) as [s1 ->].
  - pose proof (Forall_within _ n H) as Hc.
    rewrite Forall_forall in IH, Hc. apply Forall_forall.
    intros c Hin s0. apply IH; [exact Hin | exact (Hc c Hin)].
  - simpl. apply Hv. apply H. constructor.
Qed.

(** X9. On a tree of the shape the parser builds (the value of every
    method is a function, every function declaration under a named
    export has a name) no visitor throws, in either mode and in both
    revisions of the script: the walk returns an array, so the textual
    fallback runs only when parsing itself fails. *)
Theorem walk_never_throws_on_parsed_trees (includeAllMethods : bool) (n : node)
    (signatures : list string) :
  (forall d, within d n -> shaped d = true) ->
  (exists found, walk (signatureVisitors includeAllMethods) n signatures = Ok found)
  /\ (exists found, walk Legacy.signatureVisitors n signatures = Ok found).
Proof.
  intros H. split.
  - apply walk_total; [apply signatureVisitors_total | exact H].
  - apply walk_total; [apply legacy_signatureVisitors_total | exact H].
Qed.

Lemma walk_never_throws_on_parsed_trees_witness :
  (forall d, within d unexported_module -> shaped d = true)
  /\ exists found, walk (signatureVisitors true) unexported_module [] = Ok found.
Proof.
  split; [exact unexported_module_is_shaped|].
  exact (proj1 (walk_never_throws_on_parsed_trees true unexported_module []
                  unexported_module_is_shaped)).
Defined.

(** ** What the textual fallback reports *)

Lemma str_includes_iff (s sub : string) :
  str_includes s sub = true <-> exists pre post, s = pre ++ sub ++ post.
Proof.
  split.
  - induction s as [|c s IH]; cbn [str_includes].
    + destruct (String.prefix sub "") eqn:E; [|discriminate].
      intros _. apply prefix_append_iff in E. destruct E as [r E]. now exists "", r.
    + destruct (String.prefix sub (String c s)) eqn:E.
      * intros _. apply prefix_append_iff in E. destruct E as [r E]. now exists "", r.
      * intros H. destruct (IH H) as (pre & post & ->). now exists (String c pre), post.
  - intros (pre & post & ->). induction pre as [|c pre IH].
    + assert (E : String.prefix sub (sub ++ post) = true)
        by (apply prefix_append_iff; eauto).
      cbn [append]. destruct (sub ++ post); cbn [str_includes]; now rewrite E.
    + cbn [append str_includes]. rewrite IH. now destruct (String.prefix sub _).
Qed.

Lemma functionHead_includes (isDefault isAsync : bool) (name raw word : string) :
  str_includes name word = true \/ str_includes raw word = true ->
  str_includes (functionHead isDefault isAsync name raw) word = true.
Proof.
  unfold functionHead. intros [H|H]; apply str_includes_iff in H;
    destruct H as (p & q & ->); apply str_includes_iff.
  - exists ("export " ++ (if isDefault then "default " else "")
              ++ (if isAsync then "async " else "") ++ "function " ++ p),
           (q ++ "(" ++ raw ++ ")").
    now rewrite !append_assoc.
  - exists ("export " ++ (if isDefault then "default " else "")
              ++ (if isAsync then "async " else "") ++ "function " ++ name ++ "(" ++ p),
           (q ++ ")").
    now rewrite !append_assoc.
Qed.

(** X10. Without [--all-methods] the fallback decides the [default] tag
    and, for a function declaration, the [async] marker by searching the
    matched text for the word: on a text that starts with the head of an
    exported function declaration the first signature carries
    [export default ] exactly when the head contains [default] and
    [async ] exactly when it contains [async], so a name or a parameter
    text that contains the word sets the tag.  For an exported variable
    bound to an arrow function the [async] marker comes from the
    captured keyword, the [default] tag from the same search. *)
Theorem fallback_tags_by_substring
    (compileFuncDef : string -> result (string -> option Regex.rmatch))
    (isDefault isAsync : bool) (name raw rest : string) :
  isIdentifierName name = true ->
  isParameterText raw = true ->
  let head := functionHead isDefault isAsync name raw in
  (forall result,
     extractMethodsFromRawContent compileFuncDef (head ++ rest) false = Ok result ->
     exists others,
       result = ((if str_includes head "default" then "export default " else "export ")
                 ++ (if str_includes head "async" then "async " else "")
                 ++ name ++ "(" ++ raw ++ ")") :: others)
  /\ (str_includes name "default" = true \/ str_includes raw "default" = true ->
      str_includes head "default" = true)
  /\ (str_includes name "async" = true \/ str_includes raw "async" = true ->
      str_includes head "async" = true)
  /\ (forall kw result,
        Matching.isDeclKeyword kw = true ->
        extractMethodsFromRawContent compileFuncDef
          (arrowHead kw isAsync name raw ++ rest) false = Ok result ->
        In ((if str_includes (arrowHead kw isAsync name raw) "default"
             then "export default " else "export ")
            ++ (if isAsync then "async " else "") ++ name ++ "(" ++ raw ++ ")")
           result).
Proof.
  intros Hn Hr head. split; [|split; [|split]].
  - intros result H. apply fallback_exported_result in H. destruct H as [listed ->].
    subst head.
    destruct (exportedFunction_first_match isDefault isAsync name raw rest Hn Hr)
      as [more ->].
    cbn [map app]. eexists. reflexivity.
  - apply functionHead_includes.
  - apply functionHead_includes.
  - intros kw result Hkw H. apply fallback_exported_result in H.
    destruct H as [listed ->].
    destruct (exportedArrow_first_match kw isAsync name raw rest Hkw Hn Hr)
      as [more ->].
    apply in_or_app. right. cbn [map app]. left.
    unfold signature_exportedArrow. destruct isAsync; reflexivity.
Qed.

Lemma fallback_tags_by_substring_witness :
  isIdentifierName "load" = true
  /\ isParameterText "defaultValue" = true
  /\ forall result,
       extractMethodsFromRawContent rejectAll "export function load(defaultValue) {}" false
       = Ok result ->
       exists others, result = "export default load(defaultValue)" :: others.
Proof.
  split; [reflexivity|]. split; [reflexivity|].
  exact (proj1 (fallback_tags_by_substring rejectAll false false "load" "defaultValue"
                  " {}" eq_refl eq_refl)).
Defined.

Module AllDeclarations.
Import Regex Patterns Matching RegexFacts MatchShapes.

Lemma accepts_exportMarker (exported isDefault : bool) (c : captures) :
  accepts (Opt (seq [lit "export"; sp1; defaultOpt])) (exportMarker exported isDefault)
    (fun t => stops isSpace t /\ stops (Ascii.eqb "d") t /\ stops (Ascii.eqb "e") t) c c.
Proof.
  destruct exported; unfold exportMarker.
  - apply accepts_Opt_take. unfold seq, fold_right.
    eapply accepts_Seq;
      [ apply (accepts_lit "export" (fun _ => True)) | | intros t _; exact I ].
    eapply accepts_Seq;
      [ apply accepts_Plus; [discriminate | reflexivity] |
      | intros t Ht; destruct isDefault; [exact eq_refl | apply Ht] ].
    eapply accepts_Seq;
      [ apply (accepts_optional isDefault "d" "efault" _
                 (fun t => stops isSpace t /\ stops (Ascii.eqb "d") t)); tauto
      | apply accepts_Eps
      | intros t Ht; tauto ].
  - apply accepts_Opt_skip. intros t c0 k Ht. apply rejects_lit. tauto.
Qed.

Lemma accepts_function (exported isDefault isAsync : bool) (name raw : string) :
  name <> "" -> all_in isWord name = true -> all_in (isNot ")"%char) raw = true ->
  accepts functionRegex
    (exportMarker exported isDefault ++ optional isAsync "async"
       ++ "function" ++ " " ++ name ++ "" ++ "(" ++ raw ++ ")" ++ "")
    (fun _ => True) [] [(2, raw); (1, name)].
Proof.
  intros Hne Hw Hr. unfold functionRegex, seq, fold_right.
  eapply accepts_Seq;
    [ apply accepts_exportMarker |
    | intros t _; destruct isAsync; repeat split; exact eq_refl ].
  eapply accepts_Seq;
    [ apply (accepts_optional isAsync "a" "sync" _
               (fun t => stops isSpace t /\ stops (Ascii.eqb "a") t)); tauto |
    | intros t _; split; exact eq_refl ].
  eapply accepts_Seq; [ apply (accepts_lit "function" (fun _ => True)) | | next_char ].
  eapply accepts_Seq;
    [ apply accepts_Plus; [discriminate | reflexivity] | | next_char ].
  apply (accepts_name_and_args name raw 1 2 []); assumption.
Qed.

Lemma accepts_legacy_marker (exported : bool) (c : captures) :
  accepts (Opt (seq [lit "export"; sp1])) (exportMarker exported false)
    (fun t => stops isSpace t /\ stops (Ascii.eqb "e") t) c c.
Proof.
  destruct exported; unfold exportMarker.
  - apply accepts_Opt_take. unfold seq, fold_right.
    eapply accepts_Seq;
      [ apply (accepts_lit "export" (fun _ => True)) | | intros t _; exact I ].
    eapply accepts_Seq;
      [ apply accepts_Plus; [discriminate | reflexivity]
      | apply accepts_Eps
      | intros t Ht; exact (proj1 Ht) ].
  - apply accepts_Opt_skip. intros t c0 k Ht. apply rejects_lit. tauto.
Qed.

Lemma accepts_legacy_function (exported isAsync : bool) (name raw : string) :
  name <> "" -> all_in isWord name = true -> all_in (isNot ")"%char) raw = true ->
  accepts Legacy.functionRegex
    (exportMarker exported false ++ optional isAsync "async"
       ++ "function" ++ " " ++ name ++ "" ++ "(" ++ raw ++ ")" ++ "")
    (fun _ => True) [] [(2, raw); (1, name)].
Proof.
  intros Hne Hw Hr. unfold Legacy.functionRegex, seq, fold_right.
  eapply accepts_Seq;
    [ apply accepts_legacy_marker |
    | intros t _; destruct isAsync; split; exact eq_refl ].
  eapply accepts_Seq;
    [ apply (accepts_optional isAsync "a" "sync" _
               (fun t => stops isSpace t /\ stops (Ascii.eqb "a") t)); tauto |
    | intros t _; split; exact eq_refl ].
  eapply accepts_Seq; [ apply (accepts_lit "function" (fun _ => True)) | | next_char ].
  eapply accepts_Seq;
    [ apply accepts_Plus; [discriminate | reflexivity] | | next_char ].
  apply (accepts_name_and_args name raw 1 2 []); assumption.
Qed.

End AllDeclarations.

Lemma declarationHead_pieces (exported isDefault isAsync : bool) (name raw : string) :
  declarationHead exported isDefault isAsync name raw
  = exportMarker exported isDefault ++ Matching.optional isAsync "async"
      ++ "function" ++ " " ++ name ++ "" ++ "(" ++ raw ++ ")" ++ "".
Proof. destruct exported, isDefault, isAsync; reflexivity. Qed.

Lemma function_first_match (exported isDefault isAsync : bool) (name raw rest : string) :
  isIdentifierName name = true -> isParameterText raw = true ->
  exists more,
    Regex.exec_all Patterns.functionRegex
      (declarationHead exported isDefault isAsync name raw ++ rest)
    = Regex.mkMatch (declarationHead exported isDefault isAsync name raw)
        [(2, raw); (1, name)] :: more.
Proof.
  intros Hn Hr. apply isIdentifierName_spec in Hn. destruct Hn as [Hne Hw].
  apply exec_all_head. rewrite declarationHead_pieces.
  apply (RegexFacts.accepts_match_here _ _ _ _ (fun _ => True)); [|exact I].
  now apply AllDeclarations.accepts_function.
Qed.

Lemma legacy_function_first_match (exported isAsync : bool) (name raw rest : string) :
  isIdentifierName name = true -> isParameterText raw = true ->
  exists more,
    Regex.exec_all Legacy.functionRegex
      (declarationHead exported false isAsync name raw ++ rest)
    = Regex.mkMatch (declarationHead exported false isAsync name raw)
        [(2, raw); (1, name)] :: more.
Proof.
  intros Hn Hr. apply isIdentifierName_spec in Hn. destruct Hn as [Hne Hw].
  apply exec_all_head. rewrite declarationHead_pieces.
  apply (RegexFacts.accepts_match_here _ _ _ _ (fun _ => True)); [|exact I].
  now apply AllDeclarations.accepts_legacy_function.
Qed.

Lemma declarationHead_includes (exported isDefault isAsync : bool) (name raw word : string) :
  str_includes name word = true \/ str_includes raw word = true ->
  str_includes (declarationHead exported isDefault isAsync name raw) word = true.
Proof.
  unfold declarationHead. intros [H|H]; apply str_includes_iff in H;
    destruct H as (p & q & ->); apply str_includes_iff.
  - exists ((if exported then "export " ++ (if isDefault then "default " else "") else "")
              ++ (if isAsync then "async " else "") ++ "function " ++ p),
           (q ++ "(" ++ raw ++ ")").
    now rewrite !append_assoc.
  - exists ((if exported then "export " ++ (if isDefault then "default " else "") else "")
              ++ (if isAsync then "async " else "") ++ "function " ++ name ++ "(" ++ p),
           (q ++ ")").
    now rewrite !append_assoc.
Qed.

(** X11. With [--all-methods] the fallback prints neither the [async]
    marker nor the [default] tag: on a text that starts with the head of
    a function declaration its first signature is the name and the text
    between the parentheses, after [export ] exactly when the head
    contains the word [export], which is the case when the declaration
    is exported and also when its name or its parameter text contains
    the word.  In the revision without the flag the first signature is
    the name and the text between the parentheses, with no tag at
    all. *)
Theorem fallback_allDeclarations_drops_markers
    (compileFuncDef : string -> result (string -> option Regex.rmatch))
    (exported isDefault isAsync : bool) (name raw rest : string) :
  isIdentifierName name = true ->
  isParameterText raw = true ->
  let head := declarationHead exported isDefault isAsync name raw in
  (exists others,
     extractMethodsFromRawContent compileFuncDef (head ++ rest) true
     = Ok (((if str_includes head "export" then "export " else "")
            ++ name ++ "(" ++ raw ++ ")") :: others))
  /\ (exported = true -> str_includes head "export" = true)
  /\ (str_includes name "export" = true \/ str_includes raw "export" = true ->
      str_includes head "export" = true)
  /\ (exists others,
        Legacy.extractMethodsFromRawContent
          (declarationHead exported false isAsync name raw ++ rest)
        = (name ++ "(" ++ raw ++ ")") :: others).
Proof.
  intros Hn Hr head. split; [|split; [|split]].
  - unfold extractMethodsFromRawContent. cbn [app]. subst head.
    destruct (function_first_match exported isDefault isAsync name raw rest Hn Hr)
      as [more ->].
    cbn [map app]. eexists. reflexivity.
  - intros ->. subst head. apply str_includes_iff.
    exists "", (" " ++ (if isDefault then "default " else "")
                  ++ (if isAsync then "async " else "")
                  ++ "function " ++ name ++ "(" ++ raw ++ ")").
    unfold declarationHead. rewrite ?append_assoc. reflexivity.
  - apply declarationHead_includes.
  - unfold Legacy.extractMethodsFromRawContent. cbn [app].
    destruct (legacy_function_first_match exported isAsync name raw rest Hn Hr)
      as [more ->].
    cbn [map app]. eexists. reflexivity.
Qed.

Lemma fallback_allDeclarations_drops_markers_witness :
  isIdentifierName "exportData" = true
  /\ isParameterText "rows" = true
  /\ exists others,
       extractMethodsFromRawContent rejectAll "async function exportData(rows) {}" true
       = Ok ("export exportData(rows)" :: others).
Proof.
  split; [reflexivity|]. split; [reflexivity|].
  exact (proj1 (fallback_allDeclarations_drops_markers rejectAll false false true
                  "exportData" "rows" " {}" eq_refl eq_refl)).
Defined.

(** ** Export lists *)

Module ExportLists.
Import Regex Patterns Matching RegexFacts MatchShapes.

Lemma trimStart_spaces (pad s : string) :
  all_in isSpace pad = true -> trimStart (pad ++ s) = trimStart s.
Proof.
  unfold all_in. induction pad as [|a pad IH]; simpl; intros H; [reflexivity|].
  apply andb_prop in H. destruct H as [-> H]. auto.
Qed.

Lemma trimStart_wordy (w s : string) :
  w <> "" -> all_in isWord w = true -> trimStart (w ++ s) = w ++ s.
Proof.
  destruct w as [|a w]; [congruence|]. unfold all_in. simpl. intros _ H.
  apply andb_prop in H. destruct H as [H _].
  now rewrite (isWord_not_isSpace a H).
Qed.

Lemma trimEnd_spaces_only (pad : string) : all_in isSpace pad = true -> trimEnd pad = "".
Proof.
  unfold all_in. induction pad as [|a pad IH]; simpl; intros H; [reflexivity|].
  apply andb_prop in H. destruct H as [-> H]. now rewrite IH.
Qed.

Lemma trimEnd_spaces (s pad : string) :
  all_in isSpace pad = true -> trimEnd (s ++ pad) = trimEnd s.
Proof.
  intros H. induction s as [|a s IH]; simpl.
  - now apply trimEnd_spaces_only.
  - now rewrite IH.
Qed.

Lemma trimEnd_wordy (w : string) : all_in isWord w = true -> trimEnd w = w.
Proof.
  unfold all_in. induction w as [|a w IH]; simpl; intros H; [reflexivity|].
  apply andb_prop in H. destruct H as [Ha H]. rewrite (IH H).
  destruct w; [|reflexivity]. now rewrite (isWord_not_isSpace a Ha).
Qed.

Lemma trimEnd_before (s w : string) :
  w <> "" -> all_in isWord w = true -> trimEnd (s ++ w) = s ++ w.
Proof.
  intros Hne Hw. induction s as [|a s IH]; simpl.
  - now apply trimEnd_wordy.
  - rewrite IH. destruct (s ++ w) eqn:E; [|reflexivity].
    destruct s, w; simpl in E; congruence.
Qed.

Lemma no_match_on_word (a : ascii) (s : string) :
  isWord a = true -> match_here asRegex (String a s) = None.
Proof.
  intros H. unfold match_here. simpl. now rewrite (isWord_not_isSpace a H).
Qed.

Lemma split_first_wordy (w : string) :
  all_in isWord w = true -> split_first asRegex w = w.
Proof.
  unfold all_in. induction w as [|a w IH]; intros H.
  - reflexivity.
  - simpl in H. apply andb_prop in H. destruct H as [Ha H].
    cbn [split_first]. rewrite (no_match_on_word a w Ha). now rewrite (IH H).
Qed.

Lemma accepts_as (c : captures) :
  accepts asRegex (" " ++ "as" ++ " " ++ "") (stops isSpace) c c.
Proof.
  unfold asRegex, seq, fold_right.
  eapply accepts_Seq;
    [ apply accepts_Plus; [discriminate | reflexivity] | | intros t _; exact eq_refl ].
  eapply accepts_Seq;
    [ apply (accepts_lit "as" (fun _ => True)) | | intros t _; exact I ].
  eapply accepts_Seq;
    [ apply accepts_Plus; [discriminate | reflexivity]
    | apply accepts_Eps
    | intros t Ht; exact Ht ].
Qed.

Lemma split_first_here (r : regex) (s : string) (m : rmatch) :
  match_here r s = Some m -> split_first r s = "".
Proof. intros H. destruct s; simpl; now rewrite H. Qed.

Lemma split_first_as (w alias : string) :
  all_in isWord w = true -> alias <> "" -> all_in isWord alias = true ->
  split_first asRegex (w ++ " as " ++ alias) = w.
Proof.
  unfold all_in at 1. induction w as [|a w IH]; intros H Hne Ha.
  - cbn [append].
    change (" as " ++ alias) with ((" " ++ "as" ++ " " ++ "") ++ alias).
    eapply split_first_here.
    apply (accepts_match_here asRegex _ [] alias (stops isSpace) (accepts_as [])).
    rewrite <- (append_nil_r alias). now apply stops_wordy.
  - simpl in H. apply andb_prop in H. destruct H as [Hw H].
    change (String a w ++ " as " ++ alias) with (String a (w ++ " as " ++ alias)).
    cbn [split_first]. rewrite (no_match_on_word a _ Hw). now rewrite (IH H).
Qed.

Lemma all_in_free (p : ascii -> bool) (c : ascii) (s : string) :
  p c = false -> all_in p s = true -> ~ occurs c s.
Proof.
  unfold all_in. intros Hc. induction s as [|a s IH]; simpl; intros H; [tauto|].
  apply andb_prop in H. destruct H as [Ha H]. intros [->|Ho]; [congruence|].
  now apply IH.
Qed.

Lemma occurs_append (c : ascii) (a b : string) :
  occurs c (a ++ b) <-> occurs c a \/ occurs c b.
Proof. induction a as [|x a IH]; simpl; tauto. Qed.

End ExportLists.

(** X12. The names of an export list are the pieces between its commas,
    and each piece gives its local name: white space around it is
    dropped, and so is an [as] clause with the name it is exported as.
    The signature found for the entry is reported under that local
    name. *)
Theorem exportedNames_are_local_names (local alias pad1 pad2 : string) :
  isIdentifierName local = true -> isIdentifierName alias = true ->
  Matching.all_in Regex.isSpace pad1 = true -> Matching.all_in Regex.isSpace pad2 = true ->
  exportedNames (pad1 ++ local ++ pad2) = [local]
  /\ exportedNames (pad1 ++ local ++ " as " ++ alias ++ pad2) = [local]
  /\ forall before after,
       exportedNames (before ++ "," ++ after)
       = (exportedNames before ++ exportedNames after)%list.
Proof.
  intros Hl Ha H1 H2.
  apply isIdentifierName_spec in Hl. destruct Hl as [Hlne Hlw].
  apply isIdentifierName_spec in Ha. destruct Ha as [Hane Haw].
  assert (F1 : ~ occurs ","%char pad1) by (apply (ExportLists.all_in_free Regex.isSpace); auto).
  assert (F2 : ~ occurs ","%char pad2) by (apply (ExportLists.all_in_free Regex.isSpace); auto).
  assert (F3 : ~ occurs ","%char local) by (apply (ExportLists.all_in_free Regex.isWord); auto).
  assert (F4 : ~ occurs ","%char alias) by (apply (ExportLists.all_in_free Regex.isWord); auto).
  split; [|split].
  - unfold exportedNames. rewrite split_free.
    + cbn [map]. unfold Regex.trim.
      rewrite (ExportLists.trimStart_spaces pad1) by assumption.
      rewrite (ExportLists.trimStart_wordy local pad2) by assumption.
      rewrite (ExportLists.trimEnd_spaces local pad2) by assumption.
      rewrite (ExportLists.trimEnd_wordy local) by assumption.
      rewrite ExportLists.split_first_wordy by assumption.
      rewrite <- (append_nil_r local) at 1.
      rewrite (ExportLists.trimStart_wordy local "") by assumption.
      rewrite append_nil_r.
      now rewrite (ExportLists.trimEnd_wordy local).
    + rewrite !ExportLists.occurs_append. tauto.
  - unfold exportedNames. rewrite split_free.
    + cbn [map]. unfold Regex.trim.
      rewrite (ExportLists.trimStart_spaces pad1) by assumption.
      rewrite (ExportLists.trimStart_wordy local) by assumption.
      replace (local ++ " as " ++ alias ++ pad2)
        with (((local ++ " as ") ++ alias) ++ pad2) by (now rewrite !append_assoc).
      rewrite (ExportLists.trimEnd_spaces _ pad2) by assumption.
      rewrite (ExportLists.trimEnd_before (local ++ " as ") alias) by assumption.
      rewrite append_assoc.
      rewrite ExportLists.split_first_as by assumption.
      rewrite <- (append_nil_r local) at 1.
      rewrite (ExportLists.trimStart_wordy local "") by assumption.
      rewrite append_nil_r.
      now rewrite (ExportLists.trimEnd_wordy local).
    + rewrite !ExportLists.occurs_append. simpl.
      intros [?|[?|[[?|[?|[?|[?|?]]]]|[?|?]]]]; try tauto; discriminate.
  - intros before after. unfold exportedNames.
    change ("," ++ after) with (String ","%char after).
    now rewrite split_append, map_app.
Qed.

Lemma exportedNames_are_local_names_witness :
  isIdentifierName "add" = true /\ isIdentifierName "sum" = true
  /\ Matching.all_in Regex.isSpace " " = true
  /\ exportedNames " add as sum " = ["add"].
Proof.
  split; [reflexivity|]. split; [reflexivity|]. split; [reflexivity|].
  exact (proj1 (proj2 (exportedNames_are_local_names "add" "sum" " " " "
                         eq_refl eq_refl eq_refl eq_refl))).
Defined.

(** The export list of a text that does not parse: the definition is
    found under the local name. *)
Example export_list_resolved_by_local_name :
  extractMethodsFromRawContent rejectAll
    ("async function add(a, b) {" ++ nl ++ "export { add as sum, missing }") false
  = Ok ["export async add(a, b)"].
Proof. reflexivity. Qed.

(** ** What a directory lists *)

Lemma filterM_filter {A} (f : A -> result bool) (xs ys : list A) :
  filterM f xs = Ok ys ->
  ys = filter (fun x => match f x with Ok true => true | _ => false end) xs.
Proof.
  revert ys. induction xs as [|x xs IH]; simpl; intros ys H.
  - now injection H as <-.
  - destruct (f x) as [b|]; simpl in H; [|discriminate].
    destruct (filterM f xs) as [rest|]; simpl in H; [|discriminate].
    injection H as <-. rewrite (IH rest eq_refl). now destruct b.
Qed.

Lemma filter_disjoint_perm {A} (p q : A -> bool) (l : list A) :
  (forall x, p x && q x = false) ->
  Permutation (filter p l ++ filter q l) (filter (fun x => p x || q x) l).
Proof.
  intros H. induction l as [|x l IH]; simpl; [constructor|].
  specialize (H x). destruct (p x), (q x); simpl in *; try discriminate.
  - now constructor.
  - symmetry. apply Permutation_cons_app. now symmetry.
  - exact IH.
Qed.

Lemma allItems_total (config : Config) (dirPath relativePath : string)
    (items : list listed) :
  (exists all, allItems config dirPath relativePath items = Ok all)
  <-> Forall (fun it => can_stat (fst it)) items.
Proof.
  unfold allItems, listFiles, listDirs. split.
  - intros [all H].
    match type of H with
    | context [filterM ?f items] => destruct (filterM f items) as [files|] eqn:E
    end; [|discriminate].
    apply filterM_Ok in E. destruct E as [E _].
    apply Forall_forall. intros it Hit. destruct (E it Hit) as [b Hb].
    destruct (statSync_isDirectory (fst it)) as [d|] eqn:S; [now exists d|discriminate].
  - intros H. rewrite Forall_forall in H.
    match goal with
    | |- context [filterM ?f items] => destruct (filterM_total f items) as [files ->]
    end.
    { intros it Hit. destruct (H it Hit) as [b ->]. simpl. eauto. }
    cbn [bind].
    match goal with
    | |- context [filterM ?f items] => destruct (filterM_total f items) as [dirs ->]
    end.
    { intros it Hit. destruct (H it Hit) as [b ->]. simpl. eauto. }
    cbn [bind]. eauto.
Qed.

(** X13. The entries a directory lists are exactly those that survive
    the filters, each once: the list is a rearrangement of the entries
    that are not hidden and are a directory whose relative path is not
    excluded or a file whose name is not excluded.  There is such a list
    exactly when [statSync] succeeds on every entry of the directory,
    the hidden and the excluded ones included. *)
Theorem listing_keeps_the_survivors (config : Config) (dirPath relativePath : string)
    (items : list listed) :
  (forall all,
     allItems config dirPath relativePath items = Ok all ->
     Permutation all
       (filter (fun it => survives config dirPath relativePath (fst it)) items))
  /\
  ((exists all, allItems config dirPath relativePath items = Ok all)
   <-> Forall (fun it => can_stat (fst it)) items).
Proof.
  split; [|apply allItems_total].
  intros all H. unfold allItems, listFiles, listDirs in H.
  match type of H with
  | context [filterM ?f items] => destruct (filterM f items) as [files|] eqn:Ef
  end; [|discriminate].
  cbn [bind] in H.
  match type of H with
  | context [filterM ?f items] => destruct (filterM f items) as [dirs|] eqn:Ed
  end; [|discriminate].
  cbn [bind] in H. injection H as <-.
  apply filterM_filter in Ef, Ed. subst files dirs.
  rewrite <- !sort_by_perm.
  etransitivity; [apply filter_disjoint_perm|].
  - intros it. unfold item_name.
    destruct (statSync_isDirectory (fst it)) as [[]|]; simpl; try reflexivity.
    apply andb_false_r.
  - erewrite filter_ext; [reflexivity|].
    intros it. unfold survives, item_name.
    destruct (statSync_isDirectory (fst it)) as [[]|]; simpl; try reflexivity;
      match goal with |- context [if ?c then true else false] => destruct c end;
      reflexivity.
Qed.

Lemma filterM_drop {A} (f : A -> result bool) (before after : list A) (x : A) :
  f x = Ok false -> filterM f (before ++ x :: after) = filterM f (before ++ after).
Proof.
  intros Hx. induction before as [|y before IH]; simpl.
  - rewrite Hx. simpl. now destruct (filterM f after).
  - destruct (f y); simpl; [|reflexivity]. now rewrite IH.
Qed.

Lemma generateTree_entry
    (maxDepth : option Z) (showMethods showAllMethods : bool)
    (configSource : ConfigSource) (parse : string -> result node)
    (compileFuncDef : string -> result (string -> option Regex.rmatch)) (e : entry) :
  exists readdir,
    generateTree maxDepth showMethods showAllMethods configSource parse compileFuncDef e
    = generateTree_in maxDepth showMethods showAllMethods configSource parse
        compileFuncDef readdir.
Proof. destruct e; eexists; reflexivity. Qed.

Lemma forEach_last_throws {A} (f : A -> bool -> result string) (xs : list A) (x : A) :
  In x xs -> (forall b, exists e, f x b = Throw e) ->
  exists e', forEach_last f xs = Throw e'.
Proof.
  intros Hin Hx. induction xs as [|y xs IH]; [contradiction|].
  cbn [forEach_last].
  destruct Hin as [->|Hin].
  - destruct (Hx (match xs with [] => true | _ :: _ => false end)) as [e ->].
    simpl. eauto.
  - destruct (f y _); simpl; [|eauto].
    destruct (IH Hin) as [e' ->]. simpl. eauto.
Qed.

Lemma beyondMaxDepth_S (maxDepth : option Z) (level : nat) :
  beyondMaxDepth maxDepth (S level) = false -> beyondMaxDepth maxDepth level = false.
Proof.
  unfold beyondMaxDepth. destruct maxDepth as [d|]; [|reflexivity].
  rewrite !Z.ltb_ge. lia.
Qed.

Section Traversal.

Variable maxDepth : option Z.
Variable showMethods showAllMethods : bool.
Variable configSource : ConfigSource.
Variable parse : string -> result node.
Variable compileFuncDef : string -> result (string -> option Regex.rmatch).

Let generate := generateTree maxDepth showMethods showAllMethods configSource parse
                  compileFuncDef.
Let config := loadConfig configSource.

(** X14. An entry that the filters drop (a hidden entry, a directory
    with an excluded path, a file with an excluded name) has no effect on
    the tree, provided [statSync] succeeds on it: the text generated for
    the directory is the one generated without the entry, and nothing
    below the entry is read. *)
Theorem dropped_entry_has_no_effect (name : string) (before after : list entry)
    (e : entry) (dirPath : string) (level : nat) (relativePath : string)
    (isLast : bool) (prefix : string) :
  can_stat e ->
  survives config dirPath relativePath e = false ->
  generate (Directory name (before ++ e :: after)) dirPath level relativePath isLast prefix
  = generate (Directory name (before ++ after)) dirPath level relativePath isLast prefix.
Proof.
  intros [b Hb] Hs. unfold generate.
  rewrite !generateTree_Directory. unfold generateTree_in.
  destruct (beyondMaxDepth maxDepth level); [reflexivity|].
  destruct (Nat.ltb 0 level && shouldExcludePath _ relativePath); [reflexivity|].
  cbn [bind]. rewrite !map_app. cbn [map].
  unfold allItems, listFiles, listDirs.
  unfold survives in Hs. rewrite Hb in Hs.
  rewrite !(filterM_drop _ _ _ (e, generateTree maxDepth showMethods showAllMethods
                                    configSource parse compileFuncDef e)).
  - reflexivity.
  - unfold item_name. cbn [fst]. rewrite Hb. cbn [bind]. fold config.
    destruct b; [|reflexivity].
    now destruct (isHidden (entry_name e)), (shouldExcludePath config _).
  - unfold item_name. cbn [fst]. rewrite Hb. cbn [bind]. fold config.
    destruct b; [reflexivity|].
    now destruct (isHidden (entry_name e)), (shouldExcludeFile config _).
Qed.

(** X15. The depth limit stops the descent before anything is read: with
    a maximum depth [d], [generateTree] at a level above [d] returns the
    empty text for every entry, so a directory listed at level [d] or
    deeper is one line, its name and a slash, even when the directory
    cannot be listed. *)
Theorem depth_limit_stops_descent (d : Z) (level : nat) :
  maxDepth = Some d -> (d <= Z.of_nat level)%Z ->
  (forall e dirPath relativePath isLast prefix,
     generate e dirPath (S level) relativePath isLast prefix = Ok "")
  /\
  (forall e dirPath relativePath prefix isLastItem,
     is_dir e ->
     renderItem showMethods showAllMethods parse compileFuncDef config
       dirPath level relativePath prefix (e, generate e) isLastItem
     = Ok (itemHeader prefix isLastItem (entry_name e) ++ "/" ++ nl)).
Proof.
  intros Hd Hle.
  assert (G : forall e dirPath relativePath isLast prefix,
            generate e dirPath (S level) relativePath isLast prefix = Ok "").
  { intros e dirPath relativePath isLast prefix. unfold generate.
    destruct (generateTree_entry maxDepth showMethods showAllMethods configSource parse
                compileFuncDef e) as [readdir ->].
    unfold generateTree_in, beyondMaxDepth. rewrite Hd.
    assert (L : Z.ltb d (Z.of_nat (S level)) = true) by (apply Z.ltb_lt; lia).
    now rewrite L. }
  split; [exact G|].
  intros e dirPath relativePath prefix isLastItem He.
  unfold renderItem, item_name. cbn [fst snd]. rewrite He. cbn [bind].
  rewrite G. cbn [bind]. unfold itemHeader.
  now rewrite !append_assoc, append_nil_r.
Qed.

(** X16. A directory that cannot be listed aborts the traversal when it
    is reached: if a listed directory holds a subdirectory that survives
    the filters, lies within the depth limit and makes [readdirSync]
    throw, then [generateTree] throws for the listed directory, and
    nothing is rendered for it. *)
Theorem unlistable_directory_aborts (name : string) (items : list entry)
    (sub : string) (err : exn) (dirPath : string) (level : nat)
    (relativePath : string) (isLast : bool) (prefix : string) :
  In (ClosedDirectory sub err) items ->
  survives config dirPath relativePath (ClosedDirectory sub err) = true ->
  beyondMaxDepth maxDepth (S level) = false ->
  Nat.ltb 0 level && shouldExcludePath config relativePath = false ->
  exists e',
    generate (Directory name items) dirPath level relativePath isLast prefix = Throw e'.
Proof.
  intros Hin Hs Hdepth Hexcl. unfold generate.
  rewrite generateTree_Directory. unfold generateTree_in.
  rewrite (beyondMaxDepth_S _ _ Hdepth). fold config. rewrite Hexcl. cbn [bind].
  set (listing := map _ items).
  destruct (allItems config dirPath relativePath listing) as [all|] eqn:E;
    cbn [bind]; [|eauto].
  set (it := (ClosedDirectory sub err,
              generateTree maxDepth showMethods showAllMethods configSource parse
                compileFuncDef (ClosedDirectory sub err))).
  assert (Hit : In it listing).
  { apply in_map_iff. exists (ClosedDirectory sub err). split; [reflexivity|assumption]. }
  unfold survives in Hs. simpl in Hs. apply andb_prop in Hs. destruct Hs as [Hh Hp].
  apply negb_true_iff in Hh, Hp.
  assert (Hall : In it all).
  { unfold allItems in E.
    destruct (listFiles config dirPath listing) as [files|]; [|discriminate].
    cbn [bind] in E.
    destruct (listDirs config relativePath listing) as [dirs|] eqn:D; [|discriminate].
    cbn [bind] in E. injection E as <-. apply in_or_app. left.
    apply (proj2 (listDirs_Ok _ _ _ _ D)). repeat split; assumption. }
  apply (forEach_last_throws _ all it Hall).
  intros b. unfold renderItem, it, item_name.
  cbn [fst snd statSync_isDirectory bind entry_name].
  cbn [generateTree]. unfold generateTree_in.
  rewrite Hdepth. fold config. cbn [Nat.ltb Nat.leb andb]. rewrite Hp. cbn [bind]. eauto.
Qed.

(** X17. An entry on which [statSync] throws aborts the listing of its
    directory whatever its name: the filters call [statSync] before they
    look at the name, so a hidden or excluded link whose target is
    missing makes [generateTree] throw as any other does. *)
Theorem unexaminable_entry_aborts (name : string) (items : list entry)
    (link : string) (err : exn) (dirPath : string) (level : nat)
    (relativePath : string) (isLast : bool) (prefix : string) :
  In (Dangling link err) items ->
  beyondMaxDepth maxDepth level = false ->
  Nat.ltb 0 level && shouldExcludePath config relativePath = false ->
  exists e',
    generate (Directory name items) dirPath level relativePath isLast prefix = Throw e'.
Proof.
  intros Hin Hdepth Hexcl. unfold generate. rewrite generateTree_Directory.
  apply (dangling_entry_throws maxDepth showMethods showAllMethods configSource parse
           compileFuncDef _
           (Dangling link err,
            generateTree maxDepth showMethods showAllMethods configSource parse
              compileFuncDef (Dangling link err)) link err);
    try assumption; [|reflexivity].
  apply in_map_iff. exists (Dangling link err). split; [reflexivity|assumption].
Qed.

(** X18. When every entry below the root can be examined (no link with a
    missing target, no directory that cannot be listed) the main call of
    [generateTree] returns a tree, in every mode and under every
    configuration, whether or not the files can be read or parsed. *)
Theorem traversal_returns_when_examinable (customRootDir name : string)
    (items : list entry) :
  examinable (Directory name items) ->
  exists tree,
    main maxDepth showMethods showAllMethods configSource parse compileFuncDef
      customRootDir (Directory name items) = Ok tree.
Proof.
  intros H. unfold main.
  exact (traversal_completes maxDepth showMethods showAllMethods configSource parse
           compileFuncDef (Directory name items) H name items eq_refl
           customRootDir 0 "" true "").
Qed.

End Traversal.

Lemma dropped_entry_has_no_effect_witness :
  can_stat (ClosedDirectory "node_modules" (SystemError "EACCES"))
  /\ survives (loadConfig NoConfigFile) "/proj" ""
       (ClosedDirectory "node_modules" (SystemError "EACCES")) = false
  /\ main None true false NoConfigFile rejectText rejectAll "/proj"
       (Directory "proj" [File "a.js" (Ok "let x");
                          ClosedDirectory "node_modules" (SystemError "EACCES")])
     = main None true false NoConfigFile rejectText rejectAll "/proj"
         (Directory "proj" [File "a.js" (Ok "let x")]).
Proof.
  split; [now exists true|]. split; [reflexivity|].
  apply (dropped_entry_has_no_effect None true false NoConfigFile rejectText rejectAll
           "proj" [File "a.js" (Ok "let x")] []
           (ClosedDirectory "node_modules" (SystemError "EACCES")));
    [now exists true | reflexivity].
Defined.

Lemma depth_limit_stops_descent_witness :
  (0 <= Z.of_nat 0)%Z
  /\ is_dir (ClosedDirectory "private" (SystemError "EACCES"))
  /\ renderItem true false rejectText rejectAll (loadConfig NoConfigFile) "/proj" 0 "" ""
       (ClosedDirectory "private" (SystemError "EACCES"),
        generateTree (Some 0%Z) true false NoConfigFile rejectText rejectAll
          (ClosedDirectory "private" (SystemError "EACCES")))
       false
     = Ok (itemHeader "" false "private" ++ "/" ++ nl).
Proof.
  split; [simpl; lia|]. split; [reflexivity|].
  apply (proj2 (depth_limit_stops_descent (Some 0%Z) true false NoConfigFile rejectText
                  rejectAll 0%Z 0 eq_refl (Z.le_refl 0))).
  reflexivity.
Defined.

Lemma unlistable_directory_aborts_witness :
  In (ClosedDirectory "private" (SystemError "EACCES"))
     [ClosedDirectory "private" (SystemError "EACCES"); File "a.js" (Ok "let x")]
  /\ survives (loadConfig NoConfigFile) "/proj" ""
       (ClosedDirectory "private" (SystemError "EACCES")) = true
  /\ exists e',
       main None true false NoConfigFile rejectText rejectAll "/proj" with_closed_directory
       = Throw e'.
Proof.
  split; [now left|]. split; [reflexivity|].
  apply (unlistable_directory_aborts None true false NoConfigFile rejectText rejectAll
           "proj" _ "private" (SystemError "EACCES"));
    [now left | reflexivity | reflexivity | reflexivity].
Defined.

Lemma unexaminable_entry_aborts_witness :
  isHidden ".#a.js" = true
  /\ In (Dangling ".#a.js" (SystemError "ENOENT"))
        [File "a.js" (Ok "let x"); Dangling ".#a.js" (SystemError "ENOENT")]
  /\ exists e',
       main None true false NoConfigFile rejectText rejectAll "/proj"
         with_hidden_dangling_link
       = Throw e'.
Proof.
  split; [reflexivity|]. split; [right; now left|].
  apply (unexaminable_entry_aborts None true false NoConfigFile rejectText rejectAll
           "proj" _ ".#a.js" (SystemError "ENOENT"));
    [right; now left | reflexivity | reflexivity].
Defined.

Lemma traversal_returns_when_examinable_witness :
  examinable (Directory "proj" [File "a.js" (Throw (SystemError "EACCES"));
                                Directory "src" [File "b.js" (Ok "let x")]])
  /\ exists tree,
       main None true false NoConfigFile rejectText rejectAll "/proj"
         (Directory "proj" [File "a.js" (Throw (SystemError "EACCES"));
                            Directory "src" [File "b.js" (Ok "let x")]])
       = Ok tree.
Proof.
  split; [simpl; tauto|].
  apply traversal_returns_when_examinable. simpl. tauto.
Defined.

(** ** The line count *)

Lemma split_length (c : ascii) (s : string) :
  List.length (split c s) = S (count_char c s).
Proof.
  induction s as [|a s IH]; simpl; [reflexivity|].
  destruct (Ascii.eqb a c); simpl.
  - now rewrite IH.
  - destruct (split c s) eqn:E; simpl in *; [discriminate IH | exact IH].
Qed.

(** X19. The number printed for a file that can be read is one more than
    the number of newline characters of its text: an empty file has one
    line, and a text that ends with a newline counts the empty piece
    after it. *)
Theorem line_count_is_newlines_plus_one
    (showMethods showAllMethods : bool) (parse : string -> result node)
    (compileFuncDef : string -> result (string -> option Regex.rmatch))
    (config : Config) (name text itemPath prefix : string) (isLastItem : bool) :
  exists signatureLines,
    fileDetails showMethods showAllMethods parse compileFuncDef config
      (File name (Ok text)) itemPath prefix isLastItem
    = " (" ++ string_of_nat (S (count_char (ascii_of_nat 10) text)) ++ " lines)" ++ nl
        ++ signatureLines.
Proof.
  destruct (fileDetails_readable showMethods showAllMethods parse compileFuncDef config
              name text itemPath prefix isLastItem) as (methods & _ & ->).
  unfold lineCount. rewrite split_length.
  eexists. reflexivity.
Qed.

(** ** The order of the entries *)

Lemma leb_antisym (a b : string) :
  String.leb a b = true -> String.leb b a = true -> a = b.
Proof.
  unfold String.leb. intros H1 H2.
  rewrite String.compare_antisym in H2.
  destruct (String.compare a b) eqn:E; simpl in H2; try discriminate.
  now apply String.compare_eq_iff.
Qed.

Lemma sorted_perm_unique {A} (R : A -> A -> Prop) (l l' : list A) :
  StronglySorted R l -> StronglySorted R l' -> Permutation l l' ->
  (forall x y, In x l -> In y l -> R x y -> R y x -> x = y) ->
  l = l'.
Proof.
  intros Hl. revert l'. induction Hl as [|a t Ht IH Ha]; intros l' Hl' P Hanti.
  - apply Permutation_nil in P. now subst.
  - destruct Hl' as [|b t' Ht' Hb].
    + apply Permutation_sym, Permutation_nil in P. discriminate.
    + assert (E : a = b).
      { assert (Ia : In a (b :: t')) by (apply (Permutation_in _ P); now left).
        assert (Ib : In b (a :: t))
          by (apply (Permutation_in _ (Permutation_sym P)); now left).
        destruct Ia as [->|Ia]; [reflexivity|].
        destruct Ib as [->|Ib]; [reflexivity|].
        rewrite Forall_forall in Ha, Hb.
        apply Hanti; [now left | now right | now apply Ha | now apply Hb]. }
      subst b. f_equal. apply IH; [assumption | now apply Permutation_cons_inv in P |].
      intros x y Hx Hy. apply Hanti; now right.
Qed.

Lemma NoDup_map_injective {A B} (f : A -> B) (l : list A) (x y : A) :
  NoDup (map f l) -> In x l -> In y l -> f x = f y -> x = y.
Proof.
  induction l as [|a l IH]; simpl; intros N Hx Hy E; [contradiction|].
  inversion N as [|? ? Hnot N']; subst.
  destruct Hx as [->|Hx], Hy as [->|Hy]; auto.
  - exfalso. apply Hnot. rewrite E. now apply in_map.
  - exfalso. apply Hnot. rewrite <- E. now apply in_map.
Qed.

Lemma sort_by_unique {A} (key : A -> string) (l l' : list A) :
  Permutation l l' ->
  (forall x y, In x l -> In y l -> key x = key y -> x = y) ->
  sort_by key l = sort_by key l'.
Proof.
  intros P Hinj. apply (sorted_perm_unique (key_le key)).
  - apply sort_by_sorted.
  - apply sort_by_sorted.
  - rewrite <- !sort_by_perm. exact P.
  - intros x y Hx Hy Rxy Ryx. apply sort_by_In in Hx, Hy.
    apply Hinj; try assumption. now apply leb_antisym.
Qed.

Lemma filter_perm {A} (p : A -> bool) (l l' : list A) :
  Permutation l l' -> Permutation (filter p l) (filter p l').
Proof.
  induction 1 as [|x l l' _ IH|x y l|l l' l'' _ IH1 _ IH2]; simpl.
  - constructor.
  - destruct (p x); [now constructor | assumption].
  - destruct (p x), (p y); try reflexivity. constructor.
  - etransitivity; eassumption.
Qed.

Lemma filterM_all_Ok {A} (f : A -> result bool) (xs : list A) :
  (forall x, In x xs -> exists b, f x = Ok b) ->
  filterM f xs = Ok (filter (fun x => match f x with Ok true => true | _ => false end) xs).
Proof.
  intros H. destruct (filterM_total f xs H) as [ys E].
  rewrite E. f_equal. now apply filterM_filter.
Qed.

Lemma filterM_perm {A} (f : A -> result bool) (key : A -> string) (xs xs' ys : list A) :
  Permutation xs xs' ->
  (forall x y, In x xs -> In y xs -> key x = key y -> x = y) ->
  filterM f xs = Ok ys ->
  exists ys', filterM f xs' = Ok ys' /\ sort_by key ys' = sort_by key ys.
Proof.
  intros P Hinj H.
  pose proof (filterM_Ok f xs ys H) as [Hall _].
  apply filterM_filter in H. subst ys.
  eexists. split.
  - apply filterM_all_Ok. intros x Hx. apply Hall.
    apply (Permutation_in _ (Permutation_sym P)), Hx.
  - apply sort_by_unique.
    + apply filter_perm. now symmetry.
    + intros x y Hx Hy. apply filter_In in Hx, Hy.
      apply Hinj; apply (Permutation_in _ (Permutation_sym P)); tauto.
Qed.

Section Order.

Variable maxDepth : option Z.
Variable showMethods showAllMethods : bool.
Variable configSource : ConfigSource.
Variable parse : string -> result node.
Variable compileFuncDef : string -> result (string -> option Regex.rmatch).

Let generate := generateTree maxDepth showMethods showAllMethods configSource parse
                  compileFuncDef.

(** X20. The tree does not depend on the order in which [readdirSync]
    returns the entries of a directory: when the entries have distinct
    names and the tree is generated for one order, the same tree is
    generated for every other order of the same entries. *)
Theorem tree_ignores_readdir_order (name : string) (items items' : list entry)
    (dirPath : string) (level : nat) (relativePath : string) (isLast : bool)
    (prefix tree : string) :
  Permutation items items' ->
  NoDup (map entry_name items) ->
  generate (Directory name items) dirPath level relativePath isLast prefix = Ok tree ->
  generate (Directory name items') dirPath level relativePath isLast prefix = Ok tree.
Proof.
  intros P N. unfold generate. rewrite !generateTree_Directory. unfold generateTree_in.
  destruct (beyondMaxDepth maxDepth level); [auto|].
  destruct (Nat.ltb 0 level && shouldExcludePath _ relativePath); [auto|].
  cbn [bind].
  set (g := fun it : entry =>
              (it, generateTree maxDepth showMethods showAllMethods configSource parse
                     compileFuncDef it)).
  assert (PL : Permutation (map g items) (map g items')) by (now apply Permutation_map).
  assert (Hinj : forall x y, In x (map g items) -> In y (map g items) ->
                 item_name x = item_name y -> x = y).
  { intros x y Hx Hy E. apply in_map_iff in Hx, Hy.
    destruct Hx as (ex & <- & Hex), Hy as (ey & <- & Hey).
    unfold item_name in E. cbn [fst g] in E.
    now rewrite (NoDup_map_injective entry_name items ex ey N Hex Hey E). }
  unfold allItems, listFiles, listDirs. intros H.
  match type of H with
  | context [filterM ?f (map g items)] =>
      destruct (filterM f (map g items)) as [files|] eqn:Ef;
      [ destruct (filterM_perm f item_name _ _ _ PL Hinj Ef) as (files' & -> & Sf)
      | cbn [bind] in H; discriminate H ]
  end.
  cbn [bind] in H |- *.
  match type of H with
  | context [filterM ?f (map g items)] =>
      destruct (filterM f (map g items)) as [dirs|] eqn:Ed;
      [ destruct (filterM_perm f item_name _ _ _ PL Hinj Ed) as (dirs' & -> & Sd)
      | cbn [bind] in H; discriminate H ]
  end.
  cbn [bind] in H |- *. rewrite Sf, Sd. exact H.
Qed.

End Order.

Lemma tree_ignores_readdir_order_witness :
  Permutation [File "b.js" (Ok "let y"); Directory "lib" []; File "a.js" (Ok "let x")]
              [File "a.js" (Ok "let x"); File "b.js" (Ok "let y"); Directory "lib" []]
  /\ NoDup (map entry_name
              [File "b.js" (Ok "let y"); Directory "lib" []; File "a.js" (Ok "let x")])
  /\ main None true false NoConfigFile rejectText rejectAll "/proj"
       (Directory "proj"
          [File "a.js" (Ok "let x"); File "b.js" (Ok "let y"); Directory "lib" []])
     = Ok ("├── lib/" ++ nl ++ "├── a.js (1 lines)" ++ nl ++ "└── b.js (1 lines)" ++ nl).
Proof.
  assert (P : Permutation
                [File "b.js" (Ok "let y"); Directory "lib" []; File "a.js" (Ok "let x")]
                [File "a.js" (Ok "let x"); File "b.js" (Ok "let y"); Directory "lib" []]).
  { apply Permutation_sym, (Permutation_cons_app [_; _] []). reflexivity. }
  assert (N : NoDup (map entry_name
                       [File "b.js" (Ok "let y"); Directory "lib" [];
                        File "a.js" (Ok "let x")])).
  { simpl. repeat constructor; simpl; intros H;
      repeat (destruct H as [H|H]; [discriminate H|]); exact H. }
  split; [exact P|]. split; [exact N|].
  apply (tree_ignores_readdir_order None true false NoConfigFile rejectText rejectAll
           "proj" _ _ "/proj" 0 "" true "" _ P N).
  reflexivity.
Defined.

(** ** When the fallback throws *)






(** ** Exported declarations in the two revisions *)

(** X22. Without [--all-methods], a directly exported function
    declaration, and a directly exported variable bound to an arrow
    function or to a function expression, is reported once: the visitor
    of the declaration adds nothing, and the visitor of the export pushes
    the export-tagged signature after whatever the parameters and the
    body add. *)
Theorem exportedOnly_exported_declaration_once
    (name : string) (params : list node) (async : bool) (body : node)
    (signatures : list string) :
  let v := signatureVisitors false in
  let exported := mkSignature name (map renderParam params) async NamedExport in
  walk v (ExportNamedDeclaration
            (Some (FunctionDeclaration (Some (Identifier name)) params async body)))
       signatures
  = (s <- forEach (walk v) (params ++ [body]) signatures ;;
     Ok (s ++ [render_signature exported])%list)
  /\
  walk v (ExportNamedDeclaration
            (Some (VariableDeclaration
                     [VariableDeclarator (Identifier name)
                        (Some (ArrowFunctionExpression params async body))])))
       signatures
  = (s <- forEach (walk v) (params ++ [body]) signatures ;;
     Ok (s ++ [render_signature exported])%list)
  /\
  forall id,
  walk v (ExportNamedDeclaration
            (Some (VariableDeclaration
                     [VariableDeclarator (Identifier name)
                        (Some (FunctionExpression id params async body))])))
       signatures
  = (s <- forEach (walk v) (opt_list id ++ params ++ [body]) signatures ;;
     Ok (s ++ [render_signature exported])%list).
Proof.
  intros v exported.
  assert (E : forall p b,
    forEach (walk v) (Identifier name :: p ++ [b]) signatures
    = forEach (walk v) (p ++ [b]) signatures) by reflexivity.
  split; [|split]; intros.
  - rewrite walk_eq. cbn [children opt_list forEach].
    rewrite walk_eq. cbn [children opt_list app]. rewrite E, !bind_assoc.
    destruct (forEach (walk v) (params ++ [body]) signatures) as [s|e]; reflexivity.
  - rewrite walk_eq. cbn [children opt_list forEach].
    rewrite walk_eq. cbn [children opt_list forEach].
    rewrite walk_eq. cbn [children opt_list forEach].
    rewrite walk_Identifier. cbn [bind].
    rewrite walk_eq. cbn [children].
    rewrite !bind_assoc.
    destruct (forEach (walk v) (params ++ [body]) signatures) as [s|e]; reflexivity.
  - rewrite walk_eq. cbn [children opt_list forEach].
    rewrite walk_eq. cbn [children opt_list forEach].
    rewrite walk_eq. cbn [children opt_list forEach].
    rewrite walk_Identifier. cbn [bind].
    rewrite walk_eq. cbn [children].
    rewrite !bind_assoc.
    destruct (forEach (walk v) (opt_list id ++ params ++ [body]) signatures) as [s|e];
      reflexivity.
Qed.

(** X23. In the revision without the flag, a directly exported function
    declaration is reported twice, and the first, plain signature never
    carries the [async] marker while the export-tagged one does; a
    directly exported variable bound to an arrow function is reported
    once, with its [async] marker and without export tag. *)
Theorem legacy_exported_declaration_signatures
    (name : string) (params : list node) (async : bool) (body : node)
    (signatures : list string) :
  name <> "" ->
  let v := Legacy.signatureVisitors in
  let plain := mkSignature name (map renderParam params) false NotExported in
  let marked := mkSignature name (map renderParam params) async NotExported in
  let exported := mkSignature name (map renderParam params) async NamedExport in
  walk v (ExportNamedDeclaration
            (Some (FunctionDeclaration (Some (Identifier name)) params async body)))
       signatures
  = (s <- forEach (walk v) (params ++ [body]) signatures ;;
     Ok (s ++ [render_signature plain; render_signature exported])%list)
  /\
  walk v (ExportNamedDeclaration
            (Some (VariableDeclaration
                     [VariableDeclarator (Identifier name)
                        (Some (ArrowFunctionExpression params async body))])))
       signatures
  = (s <- forEach (walk v) (params ++ [body]) signatures ;;
     Ok (s ++ [render_signature marked])%list).
Proof.
  intros Hname v plain marked exported.
  assert (E : forall p b,
    forEach (walk v) (Identifier name :: p ++ [b]) signatures
    = forEach (walk v) (p ++ [b]) signatures) by reflexivity.
  split.
  - rewrite walk_eq. cbn [children opt_list forEach].
    rewrite walk_eq. cbn [children opt_list app]. rewrite E, !bind_assoc.
    destruct (forEach (walk v) (params ++ [body]) signatures) as [s|e]; [|reflexivity].
    destruct name as [|c name']; [congruence|]. cbn. unfold push.
    rewrite <- app_assoc. reflexivity.
  - rewrite walk_eq. cbn [children opt_list forEach].
    rewrite walk_eq. cbn [children opt_list forEach].
    rewrite walk_eq. cbn [children opt_list forEach].
    rewrite walk_Identifier. cbn [bind].
    rewrite walk_eq. cbn [children].
    rewrite !bind_assoc.
    destruct (forEach (walk v) (params ++ [body]) signatures) as [s|e]; [|reflexivity].
    destruct name as [|c name']; [congruence|]. cbn. unfold push.
    rewrite ?app_nil_r. reflexivity.
Qed.

Lemma legacy_exported_declaration_signatures_witness :
  "load" <> ""
  /\ walk Legacy.signatureVisitors
       (ExportNamedDeclaration
          (Some (FunctionDeclaration (Some (Identifier "load"))
                   [Identifier "url"] true emptyBlock))) []
     = Ok ["load(url)"; "export async load(url)"].
Proof.
  assert (H : "load" <> "") by discriminate.
  split; [exact H|].
  rewrite (proj1 (legacy_exported_declaration_signatures "load"
                    [Identifier "url"] true emptyBlock [] H)).
  reflexivity.
Defined.
